(** * Session capture of [capture_monitor_to_excel.py]

    A shallow embedding of the serial capture tool: the data-row pattern
    [ROW_PATTERN] and [parse_row], the tare handshake
    [run_tare_before_monitor], the capture loop of
    [capture_monitor_session], the naming of the output file and
    [compute_summary], with the properties of the session capture state
    machine proved about them.

    Conventions of the model.
    - A Python [str] is a list of Unicode code points.  The white space of
      [\s] and of [str.strip] is the set [WHITESPACE]; the class [\d] of
      the regular-expression engine, and the digits that [int()] and
      [float()] read, are the decimal digits of the interpreter's Unicode
      database.
    - What depends on the interpreter is gathered in the class
      [Interpreter]: the table of decimal digits and the limit that
      [int()] puts on the number of digits it converts.  Everything is
      proved for every interpreter; [cpython] is CPython 3.11.
    - A Python [float] is modelled by the exact rational its decimal text
      denotes; wall-clock readings, durations and timeouts are rationals as
      well (infinite and not-a-number values are not modelled).
    - [int] is the unbounded integer type [Z].
    - The serial port and the clock are an explicit [world]: the results of
      the successive [time.time()] and [ser.readline()] calls and the list
      of chunks written so far.  A line is what [readline] returned,
      decoded; an empty one stands for a read that timed out.  The port
      itself does not fail, and console output is not modelled.
    - A loop runs for a bounded number of passes, its fuel; properties of
      all executions are stated for every amount of fuel. *)

From Stdlib Require Import List String Ascii Bool Arith ZArith NArith QArith Lia Lqa.
Import ListNotations.

Set Implicit Arguments.

Close Scope Q_scope.

(** ** Text *)

(** A Unicode code point. *)
Abbreviation char := N (only parsing).

Definition str := list char.

(** The code point of an ASCII character. *)
Definition chr (a : ascii) : char := N_of_ascii a.

Arguments chr a%_char : simpl never.

(** A literal of the source. *)
Definition lit (s : string) : str := map chr (list_ascii_of_string s).

(** The code points for which [str.isspace()] holds: 9-13, 28-32, 133,
    160, U+1680, U+2000-U+200A, U+2028, U+2029, U+202F, U+205F, U+3000. *)
Definition WHITESPACE : list char :=
  [9; 10; 11; 12; 13; 28; 29; 30; 31; 32; 133; 160; 5760;
   8192; 8193; 8194; 8195; 8196; 8197; 8198; 8199; 8200; 8201; 8202;
   8232; 8233; 8239; 8287; 12288]%N.

(** White space of [\s] and [str.strip()]. *)
Definition is_space (c : char) : bool := existsb (N.eqb c) WHITESPACE.

(** [[0-9]]. *)
Definition is_digit09 (c : char) : bool := ((48 <=? c) && (c <=? 57))%N.

(** The decimal digits of ASCII and their values. *)
Definition ascii_decimal (c : char) : option N :=
  if is_digit09 c then Some (c - 48)%N else None.

Definition ASCII : list char := map N.of_nat (seq 0 128).

Definition same_digit (a b : option N) : bool :=
  match a, b with
  | Some x, Some y => N.eqb x y
  | None, None => true
  | _, _ => false
  end.

(** What the program takes from the interpreter it runs on.
    - [decimal c] is the value of the code point [c] as a decimal digit
      ([Py_UNICODE_TODECIMAL]), if it is one.  In ASCII the decimal
      digits are [0] to [9], and no white space is a decimal digit.
    - [int_max_str_digits] is [sys.get_int_max_str_digits()]: the number
      of digits beyond which [int()] raises [ValueError]; [0] when the
      interpreter sets no limit. *)
Class Interpreter := {
  decimal : char -> option N;
  int_max_str_digits : nat;
  decimal_ascii :
    forallb (fun c => same_digit (decimal c) (ascii_decimal c)) ASCII = true;
  decimal_space :
    forallb (fun c => same_digit (decimal c) None) WHITESPACE = true
}.

Definition is_empty (s : str) : bool :=
  match s with [] => true | _ => false end.

Fixpoint lstrip (s : str) : str :=
  match s with
  | c :: s' => if is_space c then lstrip s' else s
  | [] => []
  end.

Definition rstrip (s : str) : str := rev (lstrip (rev s)).

(** [s.strip()] *)
Definition strip (s : str) : str := rstrip (lstrip s).

Fixpoint starts_with (p s : str) : bool :=
  match p, s with
  | [], _ => true
  | a :: p', b :: s' => N.eqb a b && starts_with p' s'
  | _ :: _, [] => false
  end.

(** [needle in hay] on strings: substring containment. *)
Fixpoint contains (needle hay : str) : bool :=
  starts_with needle hay ||
  match hay with
  | [] => false
  | _ :: hay' => contains needle hay'
  end.

Fixpoint split_on (sep : char) (s : str) : list str :=
  match s with
  | [] => [[]]
  | c :: s' =>
      if N.eqb c sep then [] :: split_on sep s'
      else match split_on sep s' with
           | f :: fs => (c :: f) :: fs
           | [] => [[c]]
           end
  end.

(** An optional leading minus sign, split off. *)
Definition minus_sign (s : str) : bool * str :=
  match s with
  | c :: s' => if N.eqb c (chr "-") then (true, s') else (false, s)
  | [] => (false, s)
  end.

(** The fields of a line: split at the commas, each part stripped. *)
Definition fields_of (line : str) : list str :=
  map strip (split_on (chr ",") line).

(** ** The regular expressions used by the tool

    The fragment of [re] syntax that [ROW_PATTERN] is written in, with the
    backtracking, greedy, leftmost semantics of [Pattern.match]. *)

Inductive cls := Space | Digit09 | DigitD.

Inductive re :=
| Bol                       (* ^ *)
| Chr (c : char)            (* a literal character *)
| Star (k : cls)            (* k* *)
| Plus (k : cls)            (* k+ *)
| Opt (r : re)              (* r? and (?:r)? *)
| Cat (r1 r2 : re)          (* r1 r2 *)
| Grp (i : nat) (r : re).   (* the i-th capturing group (r) *)

(** Captured groups, most recently closed first. *)
Definition caps := list (nat * str).

Fixpoint group (i : nat) (gs : caps) : option str :=
  match gs with
  | [] => None
  | (j, s) :: gs' => if Nat.eqb i j then Some s else group i gs'
  end.

Infix ">>" := Cat (at level 61, right associativity).

Definition ws : re := Star Space.
Definition comma : re := Chr (chr ",").

(** [[0-9]+(?:\.[0-9]+)?] *)
Definition udec09 : re := Plus Digit09 >> Opt (Chr (chr ".") >> Plus Digit09).
(** [-?\d+] *)
Definition sint : re := Opt (Chr (chr "-")) >> Plus DigitD.
(** [-?\d+(?:\.\d+)?] *)
Definition sdec : re :=
  Opt (Chr (chr "-")) >> Plus DigitD >> Opt (Chr (chr ".") >> Plus DigitD).

(** [^\s*([0-9]+(?:\.[0-9]+)?)\s*,\s*([0-9]+)\s*,\s*(-?\d+)\s*,\s*(-?\d+)\s*,
     \s*(-?\d+)\s*,\s*(-?\d+)\s*,\s*(-?\d+(?:\.\d+)?)] *)
Definition ROW_PATTERN : re :=
  Bol >> ws >> Grp 1 udec09 >> ws >> comma >>
  ws >> Grp 2 (Plus Digit09) >> ws >> comma >>
  ws >> Grp 3 sint >> ws >> comma >>
  ws >> Grp 4 sint >> ws >> comma >>
  ws >> Grp 5 sint >> ws >> comma >>
  ws >> Grp 6 sint >> ws >> comma >>
  ws >> Grp 7 sdec.

(** ** Data rows, errors, the port and the clock *)

Record DataRow := {
  elapsed_s : Q;
  sample_ms : Z;
  raw_adc : Z;
  avg_20 : Z;
  filtered_20 : Z;
  zeroed_adc : Z;
  strain_uE : Q
}.

(** The [RuntimeError]s of the tool, named as the specification names
    them, and the [ValueError] that [int()] raises. *)
Inductive error :=
| TareTimeout               (* "Tare timed out before completion." *)
| TareFailed                (* "Firmware reported tare failure." *)
| TareEndedWithoutResult    (* "Tare ended without a success message." *)
| EmptySession              (* "No monitoring samples captured. ..." *)
| ValueError.               (* "Exceeds the limit (...) for integer string
                               conversion" *)

(** What a function without a loop does: it returns or it raises. *)
Inductive result (A : Type) :=
| Ok (a : A)
| Err (e : error).

Arguments Ok {A} a.
Arguments Err {A} e.

(** What a call does: it returns, it raises, or it is still running when
    the fuel of the model is spent. *)
Inductive outcome (A : Type) :=
| Returned (a : A)
| Raised (e : error)
| Running.

Arguments Returned {A} a.
Arguments Raised {A} e.
Arguments Running {A}.

(** What one pass through a loop body does.  [Raise e s]: the exception
    [e] was raised, the variables of the loop being in the state [s]. *)
Inductive flow (St R : Type) :=
| Continue (s : St)
| Break (r : R)
| Raise (e : error) (s : St).

Arguments Continue {St R} s.
Arguments Break {St R} r.
Arguments Raise {St R} e s.

Definition settle {St R} (f : flow St R) : outcome R :=
  match f with
  | Continue _ => Running
  | Break r => Returned r
  | Raise e _ => Raised e
  end.

Record world := {
  clock : nat -> Q;      (* result of the k-th call of time.time() *)
  ticks : nat;           (* calls of time.time() made so far *)
  device : nat -> str;   (* decoded result of the k-th ser.readline();
                            empty when the read timed out *)
  reads : nat;           (* calls of ser.readline() made so far *)
  tx : list str          (* chunks written with ser.write(), oldest first *)
}.

Definition time_time (w : world) : Q * world :=
  (clock w (ticks w),
   {| clock := clock w; ticks := S (ticks w); device := device w;
      reads := reads w; tx := tx w |}).

Definition readline (w : world) : str * world :=
  (device w (reads w),
   {| clock := clock w; ticks := ticks w; device := device w;
      reads := S (reads w); tx := tx w |}).

(** [ser.write(b); ser.flush()] *)
Definition write (b : str) (w : world) : world :=
  {| clock := clock w; ticks := ticks w; device := device w;
     reads := reads w; tx := tx w ++ [b] |}.

(** The reading of the clock made last. *)
Definition now (w : world) : Q := clock w (pred (ticks w)).

(** [a > b] and [a >= b] on clock values. *)
Definition Qgtb (a b : Q) : bool := negb (Qle_bool a b).
Definition Qgeb (a b : Q) : bool := Qle_bool b a.

Definition CMD_TARE : str := lit "z".
Definition CMD_MONITOR : str := lit "m".
Definition CMD_STOP : str := [chr "x"; chr "010"].

Definition TARE_BANNER : str := lit "=== TARING STRAIN GAUGE ===".
Definition TARE_OK : str := lit "Strain gauge zeroed successfully!".
Definition TARE_FAILED : str := lit "Failed to zero strain gauge!".
Definition BANNER_CLOSE : str := lit "===========================".
Definition SESSION_START : str := lit "[M_SESSION_START]".
Definition SESSION_END : str := lit "[M_SESSION_END]".
Definition STOPPED_PHRASE : str := lit "Monitoring stopped. Collected".

Section Loop.

Variables St R : Type.
Variable body : St -> world -> flow St R * world.

(** [while True: body], run for at most [fuel] passes.  [Continue s]
    says that the loop is still inside, in state [s]. *)
Fixpoint loop (fuel : nat) (s : St) (w : world) : flow St R * world :=
  match fuel with
  | O => (Continue s, w)
  | S n =>
      match body s w with
      | (Continue s', w') => loop n s' w'
      | (Break r, w') => (Break r, w')
      | (Raise e s', w') => (Raise e s', w')
      end
  end.

End Loop.

(** ** [run_tare_before_monitor] *)

(** Lines 75-86: classification of one non-empty line. *)
Definition tare_line (line : str) (saw_tare_banner : bool) : flow bool unit :=
  let saw := if contains TARE_BANNER line then true else saw_tare_banner in
  if contains TARE_OK line then Break tt
  else if contains TARE_FAILED line then Raise TareFailed saw
  else if saw && contains BANNER_CLOSE line
       then Raise TareEndedWithoutResult saw
  else Continue saw.

(** Lines 62-86: one pass through the [while True] of the handshake. *)
Definition tare_body (tare_start tare_timeout_s : Q) (saw_tare_banner : bool)
           (w : world) : flow bool unit * world :=
  let (t, w1) := time_time w in
  if Qgtb (t - tare_start) tare_timeout_s
  then (Raise TareTimeout saw_tare_banner, w1)
  else
    let (raw, w2) := readline w1 in
    if is_empty raw then (Continue saw_tare_banner, w2)
    else
      let line := strip raw in
      if is_empty line then (Continue saw_tare_banner, w2)
      else (tare_line line saw_tare_banner, w2).

Definition tare_loop (fuel : nat) (tare_start tare_timeout_s : Q)
  : bool -> world -> flow bool unit * world :=
  loop (tare_body tare_start tare_timeout_s) fuel.

(** Lines 54-59, then the loop. *)
Definition run_tare_before_monitor (fuel : nat) (tare_timeout_s : Q)
           (w : world) : outcome unit * world :=
  let w1 := write CMD_TARE w in
  let (tare_start, w2) := time_time w1 in
  let (f, w3) := tare_loop fuel tare_start tare_timeout_s false w2 in
  (settle f, w3).

(** The default [tare_timeout_s = 60.0] used by the caller. *)
Definition TARE_TIMEOUT_DEFAULT : Q := 60.

(** ** The state of the capture and its frame *)

Record params := {
  duration : option Q;   (* soft duration, [None] when absent *)
  timeout : Q            (* hard timeout *)
}.

Record cstate := {
  rows : list DataRow;
  collecting : bool;
  sent_stop : bool;
  monitor_start_wall : option Q
}.

Definition initial : cstate :=
  {| rows := []; collecting := false; sent_stop := false;
     monitor_start_wall := None |}.

Definition set_sent_stop (st : cstate) : cstate :=
  {| rows := rows st; collecting := collecting st; sent_stop := true;
     monitor_start_wall := monitor_start_wall st |}.

(** Lines 111-118: the hard-timeout branch at the top of the loop.
    [None] is the [break]. *)
Definition hard_deadline (p : params) (start_wall : Q) (st : cstate)
           (w : world) : option cstate * world :=
  if Qgtb (timeout p) 0 then
    let (t, w1) := time_time w in
    if Qgtb (t - start_wall) (timeout p) then
      if collecting st && negb (sent_stop st)
      then (Some (set_sent_stop st), write CMD_STOP w1)
      else (None, w1)
    else (Some st, w1)
  else (Some st, w).

(** Lines 130-132: the session-start marker. *)
Definition mark_start (line : str) (st : cstate) (w : world) : cstate * world :=
  if contains SESSION_START line then
    let (t, w1) := time_time w in
    ({| rows := rows st; collecting := true; sent_stop := sent_stop st;
        monitor_start_wall := Some t |}, w1)
  else (st, w).

(** Lines 139-144: the soft-duration stop. *)
Definition soft_deadline (p : params) (st : cstate) (w : world) : cstate * world :=
  match duration p, sent_stop st, monitor_start_wall st with
  | Some d, false, Some t0 =>
      let (t, w1) := time_time w in
      if Qgeb (t - t0) d
      then (set_sent_stop st, write CMD_STOP w1)
      else (st, w1)
  | _, _, _ => (st, w)
  end.

(** The frame handed to the report: the rows, numbered from 1, with the
    interval column of line 156. *)
Record frame_row := {
  sample : nat;
  data : DataRow;
  entry_interval_ms : Q
}.

Fixpoint frame_from (n : nat) (prev : option Q) (rs : list DataRow)
  : list frame_row :=
  match rs with
  | [] => []
  | r :: rs' =>
      {| sample := n; data := r;
         entry_interval_ms :=
           match prev with
           | None => inject_Z (sample_ms r)
           | Some e0 => ((elapsed_s r - e0) * 1000)%Q
           end |} :: frame_from (S n) (Some (elapsed_s r)) rs'
  end.

Definition data_frame (rs : list DataRow) : list frame_row :=
  frame_from 1 None rs.

(** Lines 149-158. *)
Definition finish (st : cstate) : outcome (list frame_row) :=
  match rows st with
  | [] => Raised EmptySession
  | _ => Returned (data_frame (rows st))
  end.

(** The state a loop is in, has left with, or was in when an exception
    left it. *)
Definition state_of (f : flow cstate cstate) : option cstate :=
  match f with
  | Continue st => Some st
  | Break st => Some st
  | Raise _ st => Some st
  end.

Definition left_loop (f : flow cstate cstate) : bool :=
  match f with
  | Continue _ => false
  | _ => true
  end.

Definition ends_session (line : str) : bool :=
  contains SESSION_END line || contains STOPPED_PHRASE line.

(** A device that sends the lines [ls] one per read and then stays
    silent, under a clock that advances by [dt] per reading. *)
Definition script (ls : list str) (dt : Q) : world :=
  {| clock := fun k => (inject_Z (Z.of_nat k) * dt)%Q; ticks := 0;
     device := fun k => nth k ls []; reads := 0; tx := [] |}.

(** A silent device as the capture loop finds it: the monitor command has
    been written, [start_wall] has been read, and every further reading of
    the clock gives [late]. *)
Definition silent_since (late : Q) : world :=
  {| clock := fun _ => late; ticks := 1; device := fun _ => [];
     reads := 0; tx := [CMD_MONITOR] |}.

(** A session that has seen its start marker and sent no stop yet. *)
Definition underway : cstate :=
  {| rows := []; collecting := true; sent_stop := false;
     monitor_start_wall := Some 0%Q |}.

(** Duration and timeout as the command line sets them by default. *)
Definition DEFAULTS : params := {| duration := Some 20%Q; timeout := 90%Q |}.

Definition row_1_to_7 : DataRow :=
  {| elapsed_s := 1; sample_ms := 2; raw_adc := 3; avg_20 := 4;
     filtered_20 := 5; zeroed_adc := 6; strain_uE := 7 |}.

Definition scenario : list str :=
  map lit [ "=== TARING STRAIN GAUGE ===";
            "Strain gauge zeroed successfully!";
            "[M_SESSION_START]";
            "0.10,100,512,510,509,3,1.25";
            "0.20,100,515,511,509,4,1.40";
            "0.30,100,520,512,510,5,1.55";
            "[M_SESSION_END]" ]%string.

(** A line that is a row but for its third field, which has [n] digits. *)
Definition long_field_line (n : nat) : str :=
  lit "1,2," ++ repeat (chr "7") n ++ lit ",4,5,6,7".

(** ** Observations of a run *)

(** How often the stop command occurs among the chunks written. *)
Definition count_stop (chunks : list str) : nat :=
  count_occ (list_eq_dec N.eq_dec) chunks CMD_STOP.

(** The stop command, when the state says that it has been sent. *)
Definition sent (st : cstate) : list str :=
  if sent_stop st then [CMD_STOP] else [].

(** The lines read between the world [w] and the later world [w'], in the
    order of their arrival, stripped. *)
Definition received (w w' : world) : list str :=
  map (fun k => strip (device w k)) (seq (reads w) (reads w' - reads w)).

(** The lines from the first one that bears the session-start marker on,
    that line included. *)
Fixpoint from_marker (ls : list str) : list str :=
  match ls with
  | [] => []
  | l :: ls' => if contains SESSION_START l then ls else from_marker ls'
  end.

(** Some line of [ls] bears the session-start marker. *)
Definition start_seen (ls : list str) : bool :=
  existsb (contains SESSION_START) ls.

Definition progress (st : cstate) : bool * list DataRow :=
  (collecting st, rows st).

(** From the [k]-th reading on the clock is past the hard deadline. *)
Definition late_from (p : params) (start_wall : Q) (w : world) (k : nat)
  : Prop :=
  forall i, k <= i -> Qgtb (clock w i - start_wall) (timeout p) = true.

(** ** Observations of the handshake *)

(** The [k]-th line read from the world [w] on, stripped. *)
Definition line_at (w : world) (k : nat) : str :=
  strip (device w (reads w + k)).

(** The [k]-th pass of the handshake loop entered at [w] does not find the
    timeout exceeded. *)
Definition in_time (tare_start tare_timeout_s : Q) (w : world) (k : nat)
  : bool :=
  negb (Qgtb (clock w (ticks w + k) - tare_start) tare_timeout_s).

(** The line bears neither the success nor the failure marker. *)
Definition undecided (line : str) : bool :=
  negb (contains TARE_OK line) && negb (contains TARE_FAILED line).

(** The world in which [run_tare_before_monitor] enters its loop. *)
Definition tare_entry (w : world) : world :=
  snd (time_time (write CMD_TARE w)).

(** When the loop fails for want of a result, seen from a pass on. *)
Definition ends_unresolved (n : nat) (ts tt : Q) (saw : bool) (w : world)
  : Prop :=
  exists j,
    j < n /\
    (saw = true \/
     exists i, i <= j /\ contains TARE_BANNER (line_at w i) = true) /\
    contains BANNER_CLOSE (line_at w j) = true /\
    forall k, k <= j ->
      in_time ts tt w k = true /\ undecided (line_at w k) = true.

(** The banner flag when the [j]-th pass begins: the flag the loop was
    entered with, or a banner in one of the lines read before. *)
Definition bannered (w : world) (saw : bool) (j : nat) : bool :=
  saw || existsb (fun i => contains TARE_BANNER (line_at w i)) (seq 0 j).

(** The line decides nothing: it bears no success or failure marker and
    does not close a banner seen before it or in it. *)
Definition passes_over (saw : bool) (line : str) : bool :=
  undecided line &&
  negb ((saw || contains TARE_BANNER line) && contains BANNER_CLOSE line).

(** Every pass before the [j]-th is in time and reads a line that decides
    nothing. *)
Definition quiet_until (ts tt : Q) (saw : bool) (w : world) (j : nat)
  : Prop :=
  forall k, k < j ->
    in_time ts tt w k = true /\
    passes_over (bannered w saw k) (line_at w k) = true.

(** What the [j]-th pass does when it is reached. *)
Definition pass_flow (ts tt : Q) (saw : bool) (w : world) (j : nat)
  : flow bool unit :=
  if in_time ts tt w j
  then tare_line (line_at w j) (bannered w saw j)
  else Raise TareTimeout (bannered w saw j).

(** The [j]-th pass ends the handshake: it is late or reads a line that
    decides. *)
Definition decides (ts tt : Q) (saw : bool) (w : world) (j : nat) : bool :=
  negb (in_time ts tt w j && passes_over (bannered w saw j) (line_at w j)).

(** The same for [run_tare_before_monitor] as a whole: its [j]-th pass is
    in time; all passes before the [j]-th are in time and decide
    nothing. *)
Definition tare_in_time (tare_timeout_s : Q) (w : world) (j : nat) : bool :=
  in_time (clock w (ticks w)) tare_timeout_s (tare_entry w) j.

Definition tare_quiet (tare_timeout_s : Q) (w : world) (j : nat) : Prop :=
  quiet_until (clock w (ticks w)) tare_timeout_s false (tare_entry w) j.

(** ** Text laid out in fields *)

Definition blank (w : str) : Prop := forallb is_space w = true.

(** Text without white space and without the separator [sep]. *)
Definition solid (sep : char) (g : str) : Prop :=
  g <> [] /\
  forallb (fun c => negb (is_space c) && negb (N.eqb c sep)) g = true.

Fixpoint join (sep : char) (l : list str) : str :=
  match l with
  | [] => []
  | a :: l' =>
      match l' with
      | [] => a
      | _ :: _ => a ++ sep :: join sep l'
      end
  end.

(** Text without the separator [sep]. *)
Definition lacks (sep : char) (a : str) : Prop :=
  forallb (fun c => negb (N.eqb c sep)) a = true.

(** [pre] is the texts [g :: texts] laid out with white space around them
    and commas between them; nothing follows the last text. *)
Fixpoint laid (g : str) (texts : list str) (pre : str) : Prop :=
  match texts with
  | [] => exists w, pre = w ++ g /\ blank w
  | g' :: texts' =>
      exists w w' tl,
        pre = w ++ g ++ w' ++ chr "," :: tl /\ blank w /\ blank w' /\
        laid g' texts' tl
  end.

(** A list of fields against the shapes asked for, one for one. *)
Fixpoint conforms (shapes : list (str -> bool)) (fields : list str) : bool :=
  match shapes, fields with
  | [], [] => true
  | sh :: shapes', f :: fields' => sh f && conforms shapes' fields'
  | _, _ => false
  end.

(** A run of digits of the class [d], not empty. *)
Definition unsigned_integer (d : char -> bool) (f : str) : bool :=
  negb (is_empty f) && forallb d f.

(** Digits, optionally a point and digits. *)
Definition unsigned_decimal (d : char -> bool) (f : str) : bool :=
  match split_on (chr ".") f with
  | [i] => unsigned_integer d i
  | [i; x] => unsigned_integer d i && unsigned_integer d x
  | _ => false
  end.

Definition signed (shape : str -> bool) (f : str) : bool :=
  shape (snd (minus_sign f)).

(** ** Labels and output paths *)

(** [[A-Za-z0-9_-]], the characters a label keeps. *)
Definition label_char (c : char) : bool :=
  (((65 <=? c) && (c <=? 90)) || ((97 <=? c) && (c <=? 122))
   || ((48 <=? c) && (c <=? 57)) || (c =? 95) || (c =? 45))%N.

Definition is_dash (c : char) : bool := N.eqb c (chr "-").

(** [re.sub(r"[c]+", rep, s)] for a character class [c]: every maximal
    run of characters of the class is replaced by [rep].  [in_run] says
    that the character before was of the class. *)
Fixpoint sub_runs (c : char -> bool) (rep : str) (in_run : bool) (s : str)
  : str :=
  match s with
  | [] => []
  | a :: s' =>
      if c a
      then (if in_run then [] else rep) ++ sub_runs c rep true s'
      else a :: sub_runs c rep false s'
  end.

Fixpoint lstrip_by (p : char -> bool) (s : str) : str :=
  match s with
  | c :: s' => if p c then lstrip_by p s' else s
  | [] => []
  end.

Definition rstrip_by (p : char -> bool) (s : str) : str :=
  rev (lstrip_by p (rev s)).

(** [s.strip(chars)] for the set of characters [p]. *)
Definition strip_by (p : char -> bool) (s : str) : str :=
  rstrip_by p (lstrip_by p s).

(** Lines 21-24. *)
Definition sanitize_label (label : str) : str :=
  let cleaned :=
    sub_runs (fun c => negb (label_char c)) (lit "-") false (strip label) in
  let cleaned := strip_by is_dash (sub_runs is_dash (lit "-") false cleaned) in
  if is_empty cleaned then lit "session" else firstn 60 cleaned.

(** A path is the list of its components. *)
Definition path := list str.

(** Lines 27-34.  [stamp] is the text [datetime.now().strftime(...)]
    gives; the directory that the function creates is not modelled. *)
Definition build_output_path_with_label (workspace_root : path) (stamp : str)
           (label : option str) : path :=
  let output_dir := workspace_root ++ [lit "excel-results"] in
  match label with
  | Some l =>
      if is_empty l
      then output_dir ++ [lit "monitor_session_" ++ stamp ++ lit ".xlsx"]
      else output_dir ++
           [lit "monitor_session_" ++ stamp ++ lit "_" ++ sanitize_label l
                ++ lit ".xlsx"]
  | None => output_dir ++ [lit "monitor_session_" ++ stamp ++ lit ".xlsx"]
  end.

(** Lines 17-18. *)
Definition build_output_path (workspace_root : path) (stamp : str) : path :=
  build_output_path_with_label workspace_root stamp None.

(** Lines 384-385 of [main]: the label handed on, from the argument of
    [--label]. *)
Definition main_label (arg : str) : option str :=
  let run_label := if is_empty arg then [] else strip arg in
  if is_empty run_label then None else Some run_label.

Definition main_output_file (workspace_root : path) (stamp arg : str) : path :=
  build_output_path_with_label workspace_root stamp (main_label arg).

(** No two dashes side by side. *)
Fixpoint no_double_dash (s : str) : bool :=
  match s with
  | a :: s' =>
      match s' with
      | b :: _ => negb (is_dash a && is_dash b) && no_double_dash s'
      | [] => true
      end
  | [] => true
  end.

Definition starts_dash (s : str) : bool :=
  match s with a :: _ => is_dash a | [] => false end.

Definition ends_dash (s : str) : bool := starts_dash (rev s).

(** A label as [sanitize_label] leaves it when it cuts nothing off. *)
Definition clean (s : str) : bool :=
  negb (is_empty s) && (List.length s <=? 60) && forallb label_char s &&
  no_double_dash s && negb (starts_dash s) && negb (ends_dash s).

(** The characters of a file name made from a label. *)
Definition name_char (c : char) : bool :=
  label_char c || N.eqb c (chr ".").

(** ** The summary of a frame *)

Record summary := {
  samples : nat;
  sampling_total_s : Q;
  sample_ms_avg : Q;
  sample_ms_min : Z;
  sample_ms_max : Z;
  raw_high : Z;
  raw_low : Z;
  strain_high_uE : Q;
  strain_low_uE : Q;
  avg_variation_raw_step : Q;
  avg_variation_strain_step_uE : Q
}.

(** [Series.max()] and [Series.min()] of a column that is not empty. *)
Definition max_Z (x : Z) (xs : list Z) : Z := fold_left Z.max xs x.
Definition min_Z (x : Z) (xs : list Z) : Z := fold_left Z.min xs x.

Definition Qmaxb (a b : Q) : Q := if Qle_bool a b then b else a.
Definition Qminb (a b : Q) : Q := if Qle_bool a b then a else b.

Definition max_Q (x : Q) (xs : list Q) : Q := fold_left Qmaxb xs x.
Definition min_Q (x : Q) (xs : list Q) : Q := fold_left Qminb xs x.

Definition sum_Z (xs : list Z) : Z := fold_right Z.add 0%Z xs.
Definition sum_Q (xs : list Q) : Q := fold_right Qplus 0%Q xs.

(** [Series.mean()] of a column that is not empty, as the exact mean of
    its entries; the rounding of the floating-point computation is not
    modelled, and nothing is proved of the three averages of the
    summary. *)
Definition mean_Z (xs : list Z) : Q :=
  Qmake (sum_Z xs) (Pos.of_nat (List.length xs)).

Definition mean_Q (xs : list Q) : Q :=
  (sum_Q xs / inject_Z (Z.of_nat (List.length xs)))%Q.

(** [Series.diff().abs().iloc[1:]]: the sizes of the steps from each
    entry to the next, exact as well. *)
Fixpoint steps_Z (xs : list Z) : list Z :=
  match xs with
  | a :: xs' =>
      match xs' with
      | b :: _ => Z.abs (b - a) :: steps_Z xs'
      | [] => []
      end
  | [] => []
  end.

Definition Qabsb (q : Q) : Q := if Qle_bool 0 q then q else Qopp q.

Fixpoint steps_Q (xs : list Q) : list Q :=
  match xs with
  | a :: xs' =>
      match xs' with
      | b :: _ => Qabsb (b - a) :: steps_Q xs'
      | [] => []
      end
  | [] => []
  end.

(** Lines 161-177.  [None] stands for the exception that the frame
    without rows raises at [iloc[-1]]. *)
Definition compute_summary (df : list frame_row) : option summary :=
  let rs := map data df in
  let raw_step_mean :=
    if 1 <? List.length df then mean_Z (steps_Z (map raw_adc rs)) else 0%Q in
  let strain_step_mean :=
    if 1 <? List.length df then mean_Q (steps_Q (map strain_uE rs))
    else 0%Q in
  match rs, rev rs with
  | first :: rest, last :: _ =>
      Some {| samples := List.length df;
              sampling_total_s := elapsed_s last;
              sample_ms_avg := mean_Z (map sample_ms rs);
              sample_ms_min := min_Z (sample_ms first) (map sample_ms rest);
              sample_ms_max := max_Z (sample_ms first) (map sample_ms rest);
              raw_high := max_Z (raw_adc first) (map raw_adc rest);
              raw_low := min_Z (raw_adc first) (map raw_adc rest);
              strain_high_uE :=
                max_Q (strain_uE first) (map strain_uE rest);
              strain_low_uE :=
                min_Q (strain_uE first) (map strain_uE rest);
              avg_variation_raw_step := raw_step_mean;
              avg_variation_strain_step_uE := strain_step_mean |}
  | _, _ => None
  end.

(** ** What runs on the interpreter: matching, conversions, the capture *)

Section Program.

Context {py : Interpreter}.

(** [\d]: the decimal digits. *)
Definition is_digit (c : char) : bool :=
  match decimal c with Some _ => true | None => false end.

Definition in_cls (k : cls) (c : char) : bool :=
  match k with
  | Space => is_space c
  | Digit09 => is_digit09 c
  | DigitD => is_digit c
  end.

Section Matcher.

Variable A : Type.

(** Greedy repetition of one character class: the longest run is tried
    first and given back one character at a time. *)
Fixpoint star (c : char -> bool) (pos : nat) (s : str)
         (k : nat -> str -> option A) : option A :=
  match s with
  | a :: s' =>
      if c a then
        match star c (S pos) s' k with
        | Some x => Some x
        | None => k pos s
        end
      else k pos s
  | [] => k pos s
  end.

Fixpoint exec (r : re) (pos : nat) (s : str) (gs : caps)
         (k : nat -> str -> caps -> option A) : option A :=
  match r with
  | Bol => if Nat.eqb pos 0 then k pos s gs else None
  | Chr c =>
      match s with
      | a :: s' => if N.eqb a c then k (S pos) s' gs else None
      | [] => None
      end
  | Star c => star (in_cls c) pos s (fun p' s' => k p' s' gs)
  | Plus c =>
      match s with
      | a :: s' =>
          if in_cls c a
          then star (in_cls c) (S pos) s' (fun p' s' => k p' s' gs)
          else None
      | [] => None
      end
  | Opt r1 =>
      match exec r1 pos s gs k with
      | Some x => Some x
      | None => k pos s gs
      end
  | Cat r1 r2 => exec r1 pos s gs (fun p' s' gs' => exec r2 p' s' gs' k)
  | Grp i r1 =>
      exec r1 pos s gs
           (fun p' s' gs' => k p' s' ((i, firstn (p' - pos) s) :: gs'))
  end.

End Matcher.

(** [pattern.match(line)]: match at the beginning of [line]; the result is
    the captured groups. *)
Definition re_match (r : re) (line : str) : option caps :=
  exec r 0 line [] (fun _ _ gs => Some gs).

(** *** Number conversions *)

Definition digit_val (c : char) : Z :=
  match decimal c with Some v => Z.of_N v | None => 0%Z end.

Definition all_digits (s : str) : bool := unsigned_integer is_digit s.

(** Value of a run of decimal digits. *)
Definition nat_val (s : str) : Z :=
  fold_left (fun acc c => (10 * acc + digit_val c)%Z) s 0%Z.

(** [int()] refuses a text of [n] digits: more than the 640 digits below
    which no limit applies and more than the limit, when one is set.  The
    sign is not counted, leading zeros are. *)
Definition too_long (n : nat) : bool :=
  (640 <? n) && (0 <? int_max_str_digits) && (int_max_str_digits <? n).

(** [int(text)] for the literals the pattern can capture: an optional
    minus sign and decimal digits.  [None] stands for [ValueError]. *)
Definition py_int (s : str) : option Z :=
  let (neg, d) := minus_sign s in
  if all_digits d && negb (too_long (List.length d))
  then Some (if neg then (- nat_val d)%Z else nat_val d)
  else None.

(** Unsigned decimal: digits, optionally a point and digits. *)
Definition udec_val (s : str) : option Q :=
  match split_on (chr ".") s with
  | [i] => if all_digits i then Some (inject_Z (nat_val i)) else None
  | [i; f] =>
      if all_digits i && all_digits f
      then Some (Qmake (nat_val (i ++ f))
                       (Pos.pow 10 (Pos.of_nat (List.length f))))
      else None
  | _ => None
  end.

(** [float(text)] for the literals the pattern can capture: [float()]
    puts no limit on the number of digits and fails on none of them.  The
    value is the rational the text denotes; the rounding to the nearest
    binary64 number, and the infinity that [float()] gives beyond their
    range, are not modelled. *)
Definition py_float (s : str) : option Q :=
  let (neg, d) := minus_sign s in
  option_map (fun q => if neg then Qopp q else q) (udec_val d).

Definition bind {A B} (o : option A) (f : A -> option B) : option B :=
  match o with Some a => f a | None => None end.

Notation "x <- o ;; k" := (bind o (fun x => k))
  (at level 61, o at next level, right associativity).

Definition group_float (i : nat) (gs : caps) : option Q :=
  g <- group i gs ;; py_float g.

Definition group_int (i : nat) (gs : caps) : option Z :=
  g <- group i gs ;; py_int g.

(** Lines 42-50: the dictionary built from the groups of a match; [None]
    when a conversion raises. *)
Definition row_of_groups (m : caps) : option DataRow :=
  e <- group_float 1 m ;;
  ms <- group_int 2 m ;;
  raw <- group_int 3 m ;;
  avg <- group_int 4 m ;;
  fil <- group_int 5 m ;;
  zer <- group_int 6 m ;;
  st <- group_float 7 m ;;
  Some {| elapsed_s := e; sample_ms := ms; raw_adc := raw; avg_20 := avg;
          filtered_20 := fil; zeroed_adc := zer; strain_uE := st |}.

(** [parse_row(line)]: [Ok None] is Python's [None], [Err ValueError] the
    exception of a conversion. *)
Definition parse_row (line : str) : result (option DataRow) :=
  match re_match ROW_PATTERN line with
  | None => Ok None
  | Some m =>
      match row_of_groups m with
      | Some row => Ok (Some row)
      | None => Err ValueError
      end
  end.

(** *** The data-row grammar as the specification words it

    A line has the shape of a data row when it splits at its commas into
    exactly seven fields and each field, white space around it removed, is a
    number of the kind its position asks for: the first two written with
    the digits [0] to [9], the others with decimal digits. *)

(** Elapsed seconds, sample milliseconds, the four ADC values, strain. *)
Definition ROW_FIELDS : list (str -> bool) :=
  [ unsigned_decimal is_digit09; unsigned_integer is_digit09;
    signed (unsigned_integer is_digit); signed (unsigned_integer is_digit);
    signed (unsigned_integer is_digit); signed (unsigned_integer is_digit);
    signed (unsigned_decimal is_digit) ].

Definition row_shape (line : str) : bool :=
  conforms ROW_FIELDS (fields_of line).

(** The integer is short enough for [int()]. *)
Definition int_fits (f : str) : bool :=
  negb (too_long (List.length (snd (minus_sign f)))).

Definition any_length (f : str) : bool := true.

(** The five integers of a row are short enough for [int()]. *)
Definition ROW_LIMITS : list (str -> bool) :=
  [ any_length; int_fits; int_fits; int_fits; int_fits; int_fits;
    any_length ].

Definition row_fits (line : str) : bool :=
  conforms ROW_LIMITS (fields_of line).

(** *** [capture_monitor_session] *)

(** Lines 135-137: a line that parses is appended. *)
Definition collect (line : str) (st : cstate) : result cstate :=
  match parse_row line with
  | Ok (Some parsed) =>
      Ok {| rows := rows st ++ [parsed]; collecting := collecting st;
            sent_stop := sent_stop st;
            monitor_start_wall := monitor_start_wall st |}
  | Ok None => Ok st
  | Err e => Err e
  end.

(** Lines 130-147: what the loop does with a non-empty line. *)
Definition on_line (p : params) (line : str) (st : cstate) (w : world)
  : flow cstate cstate * world :=
  let (st1, w1) := mark_start line st w in
  if collecting st1 then
    match collect line st1 with
    | Err e => (Raise e st1, w1)
    | Ok st2 =>
        let (st3, w3) := soft_deadline p st2 w1 in
        if contains SESSION_END line || contains STOPPED_PHRASE line
        then (Break st3, w3)
        else (Continue st3, w3)
    end
  else (Continue st1, w1).

(** Lines 120-147: the read and what follows it. *)
Definition read_line (p : params) (st : cstate) (w : world)
  : flow cstate cstate * world :=
  let (raw, w1) := readline w in
  if is_empty raw then (Continue st, w1)
  else
    let line := strip raw in
    if is_empty line then (Continue st, w1)
    else on_line p line st w1.

(** Lines 111-147: one pass through the [while True] of the capture. *)
Definition capture_body (p : params) (start_wall : Q) (st : cstate)
           (w : world) : flow cstate cstate * world :=
  match hard_deadline p start_wall st w with
  | (None, w1) => (Break st, w1)
  | (Some st1, w1) => read_line p st1 w1
  end.

Definition capture_loop (fuel : nat) (p : params) (start_wall : Q)
  : cstate -> world -> flow cstate cstate * world :=
  loop (capture_body p start_wall) fuel.

(** Lines 104-108, then the loop: the monitor command is written, the wall
    clock is read, the loop runs from the initial state. *)
Definition monitor_phase (fuel : nat) (p : params) (w : world)
  : flow cstate cstate * world :=
  let w1 := write CMD_MONITOR w in
  let (start_wall, w2) := time_time w1 in
  capture_loop fuel p start_wall initial w2.

(** The whole function.  The handshake runs first with its default timeout;
    the bytes drained at lines 101-102 are none of the lines [device]
    lists.  [fuel_tare] and [fuel] bound the two loops. *)
Definition capture_monitor_session (fuel_tare fuel : nat) (p : params)
           (w : world) : outcome (list frame_row) * world :=
  match run_tare_before_monitor fuel_tare TARE_TIMEOUT_DEFAULT w with
  | (Returned _, w1) =>
      match monitor_phase fuel p w1 with
      | (Break st, w2) => (finish st, w2)
      | (Continue _, w2) => (Running, w2)
      | (Raise e _, w2) => (Raised e, w2)
      end
  | (Raised e, w1) => (Raised e, w1)
  | (Running, w1) => (Running, w1)
  end.

(** *** Observations of the rows *)

(** The row that a line gives, if it gives one. *)
Definition row_of (line : str) : list DataRow :=
  match parse_row line with Ok (Some r) => [r] | _ => [] end.

(** [parse_row] raises on the line. *)
Definition raises (line : str) : bool :=
  match parse_row line with Err _ => true | Ok _ => false end.

(** The rows of the lines that parse, in the order of the lines. *)
Fixpoint parsed_rows (ls : list str) : list DataRow :=
  match ls with
  | [] => []
  | l :: ls' => row_of l ++ parsed_rows ls'
  end.

(** What a line does to the collecting flag and the rows. *)
Definition scan (acc : bool * list DataRow) (line : str)
  : bool * list DataRow :=
  let c := fst acc || contains SESSION_START line in
  (c, if c then snd acc ++ row_of line else snd acc).

(** What a pass that read [line] does, the flag and the rows having
    become [acc]: it raises, leaves the loop or goes on. *)
Definition pass_end (acc : bool * list DataRow) (line : str) (st : cstate)
  : flow cstate cstate :=
  if fst acc && raises line then Raise ValueError st
  else if fst acc && ends_session line then Break st
  else Continue st.

(** *** What a match is

    [matches r pos pre gs gs']: the expression [r], at position [pos],
    matches exactly the text [pre] and turns the captures [gs] into
    [gs']. *)
Fixpoint matches (r : re) (pos : nat) (pre : str) (gs gs' : caps) : Prop :=
  match r with
  | Bol => pos = 0 /\ pre = [] /\ gs' = gs
  | Chr c => pre = [c] /\ gs' = gs
  | Star k => forallb (in_cls k) pre = true /\ gs' = gs
  | Plus k => pre <> [] /\ forallb (in_cls k) pre = true /\ gs' = gs
  | Opt r1 => (pre = [] /\ gs' = gs) \/ matches r1 pos pre gs gs'
  | Cat r1 r2 =>
      exists p1 p2 g1,
        pre = p1 ++ p2 /\ matches r1 pos p1 gs g1 /\
        matches r2 (pos + List.length p1) p2 g1 gs'
  | Grp i r1 => exists g1, matches r1 pos pre gs g1 /\ gs' = (i, pre) :: g1
  end.

(** The layout of [ROW_PATTERN]: after the anchor, each group between
    optional white space, a comma between two groups. *)
Definition field := (nat * re * (str -> bool))%type.

Definition field_shape (f : field) : str -> bool := snd f.

Fixpoint row_tail (f : field) (fs : list field) : re :=
  let '(i, r, _) := f in
  match fs with
  | [] => ws >> Grp i r
  | f' :: fs' => ws >> Grp i r >> ws >> comma >> row_tail f' fs'
  end.

Definition ROW_HEAD : field := (1, udec09, unsigned_decimal is_digit09).

Definition ROW_GROUPS : list field :=
  [ (2, Plus Digit09, unsigned_integer is_digit09);
    (3, sint, signed (unsigned_integer is_digit));
    (4, sint, signed (unsigned_integer is_digit));
    (5, sint, signed (unsigned_integer is_digit));
    (6, sint, signed (unsigned_integer is_digit));
    (7, sdec, signed (unsigned_decimal is_digit)) ].

(** The expression of a field matches exactly the texts of its shape and
    captures nothing itself. *)
Definition faithful (f : field) : Prop :=
  forall pos g gs gs',
    matches (snd (fst f)) pos g gs gs' <-> field_shape f g = true /\ gs' = gs.

(** The captures after the groups of [fs] have matched [texts]. *)
Fixpoint captured (fs : list field) (texts : list str) (gs : caps) : caps :=
  match fs, texts with
  | f :: fs', g :: texts' => captured fs' texts' ((fst (fst f), g) :: gs)
  | _, _ => gs
  end.

(** The characters numbers are written with. *)
Definition numeric (c : char) : bool :=
  is_digit c || N.eqb c (chr ".") || N.eqb c (chr "-").

(** A class of digits: decimal digits all. *)
Definition digit_class (d : char -> bool) : Prop :=
  forall c, d c = true -> is_digit c = true.

End Program.

(** ** CPython 3.11

    The decimal digits of Unicode 14.0.0 come in runs of ten, with the
    values 0 to 9 in order; [DECIMAL_RUNS] lists the first code point of
    each run.  The limit of [int()] is its default, 4300 digits. *)

Definition DECIMAL_RUNS : list char :=
  [48; 1632; 1776; 1984; 2406; 2534; 2662; 2790; 2918; 3046; 3174; 3302;
   3430; 3558; 3664; 3792; 3872; 4160; 4240; 6112; 6160; 6470; 6608; 6784;
   6800; 6992; 7088; 7232; 7248; 42528; 43216; 43264; 43472; 43504; 43600;
   44016; 65296; 66720; 68912; 69734; 69872; 69942; 70096; 70384; 70736;
   70864; 71248; 71360; 71472; 71904; 72016; 72784; 73040; 73120; 92768;
   92864; 93008; 120782; 120792; 120802; 120812; 120822; 123200; 123632;
   125264; 130032]%N.

Definition unicode_decimal (c : char) : option N :=
  match find (fun s => (s <=? c) && (c <? s + 10))%N DECIMAL_RUNS with
  | Some s => Some (c - s)%N
  | None => None
  end.

#[export] Instance cpython : Interpreter :=
  {| decimal := unicode_decimal;
     int_max_str_digits := 4300;
     decimal_ascii := eq_refl;
     decimal_space := eq_refl |}.

(** * Properties *)

Section Facts.

Context {py : Interpreter}.

(** ** The matcher finds a match exactly when there is one *)

Section MatcherFacts.

Variable A : Type.

Lemma star_sound (c : char -> bool) (s : str) :
  forall pos (k : nat -> str -> option A) x,
    star c pos s k = Some x ->
    exists pre post,
      s = pre ++ post /\ forallb c pre = true /\
      k (pos + List.length pre) post = Some x.
Proof.
  induction s as [|a s IH]; intros pos k x H; simpl in H.
  - exists [], []. simpl. rewrite Nat.add_0_r. auto.
  - destruct (c a) eqn:Ea.
    + destruct (star c (S pos) s k) eqn:Es.
      * inversion H; subst.
        destruct (IH _ _ _ Es) as (pre & post & -> & Hp & Hk).
        exists (a :: pre), post. simpl. rewrite Ea, Hp.
        rewrite <- plus_n_Sm. auto.
      * exists [], (a :: s). simpl. rewrite Nat.add_0_r. auto.
    + exists [], (a :: s). simpl. rewrite Nat.add_0_r. auto.
Qed.

Lemma star_complete (c : char -> bool) (pre post : str) :
  forall pos (k : nat -> str -> option A),
    forallb c pre = true ->
    k (pos + List.length pre) post <> None ->
    star c pos (pre ++ post) k <> None.
Proof.
  induction pre as [|a pre IH]; intros pos k Hp Hk; simpl in *.
  - rewrite Nat.add_0_r in Hk.
    destruct post as [|b post]; simpl; auto.
    destruct (c b); auto.
    destruct (star c (S pos) post k); auto. discriminate.
  - apply andb_true_iff in Hp. destruct Hp as [Ha Hp]. rewrite Ha.
    rewrite <- plus_n_Sm in Hk.
    specialize (IH (S pos) k Hp Hk).
    destruct (star c (S pos) (pre ++ post) k); [discriminate|contradiction].
Qed.

Lemma exec_sound (r : re) :
  forall pos s gs (k : nat -> str -> caps -> option A) x,
    exec r pos s gs k = Some x ->
    exists pre post gs',
      s = pre ++ post /\ matches r pos pre gs gs' /\
      k (pos + List.length pre) post gs' = Some x.
Proof.
  induction r as [|c|c|c|r IH|r1 IH1 r2 IH2|i r IH];
    intros pos s gs k x H; simpl in H.
  - destruct (Nat.eqb pos 0) eqn:E; [|discriminate].
    apply Nat.eqb_eq in E. exists [], s, gs. simpl.
    rewrite Nat.add_0_r. auto.
  - destruct s as [|a s]; [discriminate|].
    destruct (N.eqb a c) eqn:E; [|discriminate].
    apply N.eqb_eq in E. subst a. exists [c], s, gs. simpl.
    rewrite Nat.add_1_r. auto.
  - apply star_sound in H. destruct H as (pre & post & -> & Hp & Hk).
    exists pre, post, gs. simpl. auto.
  - destruct s as [|a s]; [discriminate|].
    destruct (in_cls c a) eqn:E; [|discriminate].
    apply star_sound in H. destruct H as (pre & post & -> & Hp & Hk).
    exists (a :: pre), post, gs. simpl. rewrite E, Hp.
    rewrite <- plus_n_Sm. repeat split; auto. discriminate.
  - destruct (exec r pos s gs k) eqn:E.
    + inversion H; subst.
      destruct (IH _ _ _ _ _ E) as (pre & post & gs' & -> & Hm & Hk).
      exists pre, post, gs'. simpl. auto.
    + exists [], s, gs. simpl. rewrite Nat.add_0_r. auto.
  - destruct (IH1 _ _ _ _ _ H) as (p1 & post1 & g1 & -> & Hm1 & Hk1).
    destruct (IH2 _ _ _ _ _ Hk1) as (p2 & post & g2 & -> & Hm2 & Hk2).
    exists (p1 ++ p2), post, g2. rewrite app_assoc. split; [reflexivity|].
    split.
    + simpl. exists p1, p2, g1. auto.
    + rewrite length_app, Nat.add_assoc. exact Hk2.
  - destruct (IH _ _ _ _ _ H) as (pre & post & g1 & -> & Hm & Hk).
    exists pre, post, ((i, pre) :: g1). split; [reflexivity|]. split.
    + simpl. exists g1. auto.
    + replace (pos + List.length pre - pos) with (List.length pre + 0) in Hk
        by lia.
      rewrite firstn_app_2 in Hk. simpl in Hk. rewrite app_nil_r in Hk.
      exact Hk.
Qed.

Lemma exec_complete (r : re) :
  forall pos pre post gs gs' (k : nat -> str -> caps -> option A),
    matches r pos pre gs gs' ->
    k (pos + List.length pre) post gs' <> None ->
    exec r pos (pre ++ post) gs k <> None.
Proof.
  induction r as [|c|c|c|r IH|r1 IH1 r2 IH2|i r IH];
    intros pos pre post gs gs' k Hm Hk; simpl in Hm; simpl.
  - destruct Hm as (-> & -> & ->). simpl in *. exact Hk.
  - destruct Hm as (-> & ->). simpl. rewrite N.eqb_refl.
    rewrite Nat.add_1_r in Hk. exact Hk.
  - destruct Hm as (Hp & ->). apply star_complete; auto.
  - destruct Hm as (Hne & Hp & ->).
    destruct pre as [|a pre]; [contradiction|]. simpl in *.
    apply andb_true_iff in Hp. destruct Hp as [Ha Hp]. rewrite Ha.
    rewrite <- plus_n_Sm in Hk. apply star_complete; auto.
  - destruct Hm as [(-> & ->)|Hm].
    + simpl in *. rewrite Nat.add_0_r in Hk.
      destruct (exec r pos post gs k); [discriminate|exact Hk].
    + specialize (IH _ _ _ _ _ _ Hm Hk).
      destruct (exec r pos (pre ++ post) gs k); [discriminate|contradiction].
  - destruct Hm as (p1 & p2 & g1 & -> & Hm1 & Hm2).
    rewrite <- app_assoc. eapply IH1; [exact Hm1|].
    eapply IH2; [exact Hm2|].
    rewrite length_app, Nat.add_assoc in Hk. exact Hk.
  - destruct Hm as (g1 & Hm & ->).
    eapply IH; [exact Hm|].
    replace (pos + List.length pre - pos) with (List.length pre + 0) by lia.
    rewrite firstn_app_2. simpl. rewrite app_nil_r. exact Hk.
Qed.

End MatcherFacts.

(** ** Stripping and splitting *)


Lemma blank_rev (a : str) : blank a -> blank (rev a).
Proof.
  unfold blank. rewrite !forallb_forall. intros H c Hc.
  apply H. apply in_rev. exact Hc.
Qed.

Lemma lstrip_blank (w s : str) : blank w -> lstrip (w ++ s) = lstrip s.
Proof.
  unfold blank. induction w as [|c w IH]; simpl; intros H; [reflexivity|].
  apply andb_true_iff in H. destruct H as [Hc Hw]. rewrite Hc. auto.
Qed.

Lemma lstrip_split (s : str) : exists a, s = a ++ lstrip s /\ blank a.
Proof.
  induction s as [|c s (a & Ha & Hb)]; simpl.
  - exists []. split; reflexivity.
  - destruct (is_space c) eqn:E.
    + exists (c :: a). simpl. split; [congruence|].
      unfold blank in *. simpl. rewrite E. exact Hb.
    + exists []. split; reflexivity.
Qed.

Lemma rstrip_split (s : str) : exists b, s = rstrip s ++ b /\ blank b.
Proof.
  unfold rstrip. destruct (lstrip_split (rev s)) as (a & Ha & Hb).
  exists (rev a). split; [|apply blank_rev; exact Hb].
  rewrite <- rev_app_distr, <- Ha, rev_involutive. reflexivity.
Qed.

Lemma strip_split (s : str) :
  exists a b, s = a ++ strip s ++ b /\ blank a /\ blank b.
Proof.
  destruct (lstrip_split s) as (a & Ha & Hba).
  destruct (rstrip_split (lstrip s)) as (b & Hb & Hbb).
  exists a, b. unfold strip. rewrite <- Hb. auto.
Qed.

Lemma solid_head (sep : char) (g : str) :
  solid sep g -> exists c g', g = c :: g' /\ is_space c = false.
Proof.
  intros [Hne Hall]. destruct g as [|c g']; [contradiction|].
  exists c, g'. split; [reflexivity|]. simpl in Hall.
  apply andb_true_iff in Hall. destruct Hall as [Hc _].
  apply andb_true_iff in Hc. destruct Hc as [Hc _].
  apply negb_true_iff in Hc. exact Hc.
Qed.

Lemma solid_rev (sep : char) (g : str) : solid sep g -> solid sep (rev g).
Proof.
  intros [Hne Hall]. split.
  - intros E. apply Hne. rewrite <- (rev_involutive g), E. reflexivity.
  - rewrite forallb_forall in *. intros c Hc. apply Hall, in_rev, Hc.
Qed.

Lemma lstrip_solid (sep : char) (g s : str) :
  solid sep g -> lstrip (g ++ s) = g ++ s.
Proof.
  intros H. destruct (solid_head H) as (c & g' & -> & Hc).
  simpl. rewrite Hc. reflexivity.
Qed.

Lemma strip_pad (sep : char) (w g w' : str) :
  blank w -> blank w' -> solid sep g -> strip (w ++ g ++ w') = g.
Proof.
  intros Hw Hw' Hg. unfold strip, rstrip.
  rewrite (lstrip_blank _ Hw), (lstrip_solid _ Hg).
  rewrite rev_app_distr, (lstrip_blank _ (blank_rev Hw')).
  rewrite <- (app_nil_r (rev g)), (lstrip_solid _ (solid_rev Hg)).
  rewrite app_nil_r. apply rev_involutive.
Qed.

Lemma lacks_app (sep : char) (a b : str) :
  lacks sep a -> lacks sep b -> lacks sep (a ++ b).
Proof. unfold lacks. intros Ha Hb. rewrite forallb_app, Ha, Hb. reflexivity. Qed.

Lemma solid_lacks (sep : char) (g : str) : solid sep g -> lacks sep g.
Proof.
  intros [_ H]. unfold lacks. rewrite forallb_forall in *. intros c Hc.
  specialize (H c Hc). apply andb_true_iff in H. tauto.
Qed.

Lemma split_on_lacks (sep : char) (a : str) :
  lacks sep a -> split_on sep a = [a].
Proof.
  unfold lacks. induction a as [|c a IH]; simpl; intros H; [reflexivity|].
  apply andb_true_iff in H. destruct H as [Hc Ha].
  apply negb_true_iff in Hc. rewrite Hc, (IH Ha). reflexivity.
Qed.

Lemma split_on_app (sep : char) (a b : str) :
  lacks sep a -> split_on sep (a ++ sep :: b) = a :: split_on sep b.
Proof.
  unfold lacks. induction a as [|c a IH]; simpl; intros H.
  - rewrite N.eqb_refl. reflexivity.
  - apply andb_true_iff in H. destruct H as [Hc Ha].
    apply negb_true_iff in Hc. rewrite Hc, (IH Ha). reflexivity.
Qed.

Lemma split_on_cons (sep : char) (s : str) :
  exists f fs, split_on sep s = f :: fs.
Proof.
  destruct s as [|c s]; simpl; [eauto|].
  destruct (N.eqb c sep); [eauto|].
  destruct (split_on sep s); eauto.
Qed.

Lemma split_on_join (sep : char) (s : str) :
  join sep (split_on sep s) = s.
Proof.
  induction s as [|c s IH]; simpl; [reflexivity|].
  destruct (split_on_cons sep s) as (f & fs & Es). rewrite Es in *.
  destruct (N.eqb c sep) eqn:E.
  - apply N.eqb_eq in E. subst c. simpl in *. congruence.
  - destruct fs; simpl in *; congruence.
Qed.

(** ** The interpreter's digits *)

Lemma In_ASCII (c : char) : (c < 128)%N -> In c ASCII.
Proof.
  intros H. unfold ASCII. apply in_map_iff. exists (N.to_nat c).
  split; [apply N2Nat.id|]. apply in_seq. lia.
Qed.

Lemma decimal_of_ascii (c : char) :
  (c < 128)%N -> decimal c = ascii_decimal c.
Proof.
  intros H. pose proof decimal_ascii as L. rewrite forallb_forall in L.
  specialize (L c (In_ASCII H)). unfold same_digit in L.
  destruct (decimal c) as [x|], (ascii_decimal c) as [y|];
    try discriminate L; [|reflexivity].
  apply N.eqb_eq in L. subst y. reflexivity.
Qed.

Lemma is_digit09_below (c : char) : is_digit09 c = true -> (c < 128)%N.
Proof.
  unfold is_digit09. intros H. apply andb_true_iff in H.
  destruct H as [_ H]. apply N.leb_le in H. lia.
Qed.

Lemma digit09_decimal : digit_class is_digit09.
Proof.
  intros c H. unfold is_digit.
  rewrite (decimal_of_ascii (is_digit09_below _ H)). unfold ascii_decimal.
  rewrite H. reflexivity.
Qed.

Lemma digit_decimal : digit_class is_digit.
Proof. intros c H. exact H. Qed.

Lemma space_not_digit (c : char) : is_space c = true -> is_digit c = false.
Proof.
  unfold is_space. intros H. apply existsb_exists in H.
  destruct H as (x & Hx & E). apply N.eqb_eq in E. subst x.
  pose proof decimal_space as L. rewrite forallb_forall in L.
  specialize (L c Hx). unfold is_digit, same_digit in *.
  destruct (decimal c); [discriminate L|reflexivity].
Qed.

Lemma ascii_not_digit (c : char) :
  (c < 128)%N -> is_digit09 c = false -> is_digit c = false.
Proof.
  intros H H9. unfold is_digit. rewrite (decimal_of_ascii H).
  unfold ascii_decimal. rewrite H9. reflexivity.
Qed.

Lemma digit_plain (c : char) :
  is_digit c = true ->
  N.eqb c (chr ".") = false /\ N.eqb c (chr "-") = false /\
  N.eqb c (chr ",") = false.
Proof.
  intros H.
  repeat split;
    (destruct (N.eqb c _) eqn:E; [|reflexivity];
     apply N.eqb_eq in E; subst c;
     rewrite ascii_not_digit in H; [discriminate H|reflexivity|reflexivity]).
Qed.

Lemma numeric_solid (c : char) :
  numeric c = true ->
  negb (is_space c) && negb (N.eqb c (chr ",")) = true.
Proof.
  unfold numeric. intros H. apply orb_true_iff in H.
  destruct H as [H|H]; [apply orb_true_iff in H; destruct H as [H|H]|].
  - destruct (digit_plain _ H) as (_ & _ & ->).
    destruct (is_space c) eqn:E; [|reflexivity].
    apply space_not_digit in E. congruence.
  - apply N.eqb_eq in H. subst c. reflexivity.
  - apply N.eqb_eq in H. subst c. reflexivity.
Qed.

Lemma numeric_point : numeric (chr ".") = true.
Proof. unfold numeric. rewrite N.eqb_refl, orb_true_r. reflexivity. Qed.

Lemma numeric_minus : numeric (chr "-") = true.
Proof. unfold numeric. rewrite N.eqb_refl, orb_true_r. reflexivity. Qed.

(** ** The numeric fields *)

Lemma unsigned_integer_iff (d : char -> bool) (g : str) :
  unsigned_integer d g = true <-> g <> [] /\ forallb d g = true.
Proof.
  unfold unsigned_integer. rewrite andb_true_iff. destruct g; simpl.
  - split; [intros [H _]; discriminate H|intros [H _]; contradiction].
  - split; intros [_ H]; split; auto. discriminate.
Qed.

Lemma digits_lack_point (d : char -> bool) (g : str) :
  digit_class d -> forallb d g = true -> lacks (chr ".") g.
Proof.
  intros Hd. unfold lacks. rewrite !forallb_forall. intros H c Hc.
  destruct (digit_plain c (Hd c (H c Hc))) as [E _]. rewrite E. reflexivity.
Qed.

Lemma digits_numeric (d : char -> bool) (g : str) :
  digit_class d -> forallb d g = true -> forallb numeric g = true.
Proof.
  intros Hd. rewrite !forallb_forall. intros H c Hc. unfold numeric.
  rewrite (Hd c (H c Hc)). reflexivity.
Qed.

Lemma digits_decimal (d : char -> bool) (g : str) :
  digit_class d -> unsigned_integer d g = true -> all_digits g = true.
Proof.
  intros Hd. unfold all_digits. rewrite !unsigned_integer_iff.
  intros [Hne H]. split; [exact Hne|].
  rewrite forallb_forall in *. intros c Hc. apply Hd, H, Hc.
Qed.

Lemma digits_unsigned (d : char -> bool) (g : str) :
  digit_class d -> unsigned_integer d g = true -> fst (minus_sign g) = false.
Proof.
  intros Hd. rewrite unsigned_integer_iff. intros [Hne H].
  destruct g as [|c g]; [contradiction|].
  simpl in *. apply andb_true_iff in H. destruct H as [Hc _].
  destruct (digit_plain c (Hd c Hc)) as (_ & E & _). rewrite E. reflexivity.
Qed.

(** A decimal is digits, or digits, a point and digits. *)
Lemma unsigned_decimal_iff (d : char -> bool) (g : str) :
  digit_class d ->
  (unsigned_decimal d g = true <->
   unsigned_integer d g = true \/
   exists i x, g = i ++ chr "." :: x /\
               unsigned_integer d i = true /\ unsigned_integer d x = true).
Proof.
  intros Hd. unfold unsigned_decimal. split.
  - intros H. pose proof (split_on_join (chr ".") g) as J.
    destruct (split_on (chr ".") g) as [|i [|x [|y l]]]; try discriminate H.
    + simpl in J. subst i. left. exact H.
    + simpl in J. apply andb_true_iff in H. right. exists i, x. subst g. tauto.
  - intros [H|(i & x & -> & Hi & Hx)].
    + rewrite split_on_lacks; [exact H|].
      apply (digits_lack_point _ Hd). apply unsigned_integer_iff in H. tauto.
    + rewrite split_on_app, split_on_lacks.
      * rewrite Hi, Hx. reflexivity.
      * apply (digits_lack_point _ Hd). apply unsigned_integer_iff in Hx. tauto.
      * apply (digits_lack_point _ Hd). apply unsigned_integer_iff in Hi. tauto.
Qed.

Lemma decimal_unsigned (d : char -> bool) (g : str) :
  digit_class d -> unsigned_decimal d g = true -> fst (minus_sign g) = false.
Proof.
  intros Hd. rewrite (unsigned_decimal_iff g Hd).
  intros [H|(i & x & -> & Hi & _)].
  - apply (digits_unsigned _ Hd H).
  - pose proof (digits_unsigned _ Hd Hi) as U.
    apply unsigned_integer_iff in Hi. destruct Hi as [Hne _].
    destruct i as [|c i]; [contradiction|]. simpl in *.
    destruct (N.eqb c (chr "-")); [discriminate U|reflexivity].
Qed.

Lemma decimal_numeric (d : char -> bool) (g : str) :
  digit_class d ->
  unsigned_decimal d g = true -> g <> [] /\ forallb numeric g = true.
Proof.
  intros Hd. rewrite (unsigned_decimal_iff g Hd).
  intros [H|(i & x & -> & Hi & Hx)].
  - apply unsigned_integer_iff in H. destruct H. split; [assumption|].
    apply (digits_numeric _ Hd). assumption.
  - apply unsigned_integer_iff in Hi. apply unsigned_integer_iff in Hx.
    destruct Hi as [Hne Hi], Hx as [_ Hx]. split.
    + destruct i; [contradiction|discriminate].
    + rewrite forallb_app. cbn [forallb].
      rewrite (digits_numeric _ Hd Hi), (digits_numeric _ Hd Hx),
        numeric_point.
      reflexivity.
Qed.

Lemma integer_numeric (d : char -> bool) (g : str) :
  digit_class d ->
  unsigned_integer d g = true -> g <> [] /\ forallb numeric g = true.
Proof.
  intros Hd. rewrite unsigned_integer_iff. intros [Hne H].
  split; [assumption|]. apply (digits_numeric _ Hd). assumption.
Qed.

Lemma signed_numeric (shape : str -> bool) (g : str) :
  (forall f, shape f = true -> f <> [] /\ forallb numeric f = true) ->
  signed shape g = true -> g <> [] /\ forallb numeric g = true.
Proof.
  intros Hs. unfold signed. destruct g as [|c g]; simpl.
  - intros H. apply Hs in H. exact H.
  - destruct (N.eqb c (chr "-")) eqn:E; simpl; intros H; apply Hs in H.
    + split; [discriminate|]. apply N.eqb_eq in E. subst c.
      cbn [forallb]. rewrite numeric_minus. tauto.
    + exact H.
Qed.

Lemma numeric_is_solid (g : str) :
  g <> [] /\ forallb numeric g = true -> solid (chr ",") g.
Proof.
  intros [Hne H]. split; [assumption|].
  rewrite forallb_forall in *. intros c Hc. apply numeric_solid, H, Hc.
Qed.

(** The field expressions of [ROW_PATTERN] against the field shapes. *)

Lemma plus_matches (k : cls) pos g gs gs' :
  matches (Plus k) pos g gs gs' <->
  unsigned_integer (in_cls k) g = true /\ gs' = gs.
Proof. rewrite unsigned_integer_iff. simpl. tauto. Qed.

Lemma plus09_matches pos g gs gs' :
  matches (Plus Digit09) pos g gs gs' <->
  unsigned_integer is_digit09 g = true /\ gs' = gs.
Proof. apply (plus_matches Digit09). Qed.

Lemma plusd_matches pos g gs gs' :
  matches (Plus DigitD) pos g gs gs' <->
  unsigned_integer is_digit g = true /\ gs' = gs.
Proof. apply (plus_matches DigitD). Qed.

Lemma fraction_matches (r : re) (d : char -> bool) pos g gs gs' :
  digit_class d ->
  (forall pos g gs gs',
      matches r pos g gs gs' <-> unsigned_integer d g = true /\ gs' = gs) ->
  matches (r >> Opt (Chr (chr ".") >> r)) pos g gs gs' <->
  unsigned_decimal d g = true /\ gs' = gs.
Proof.
  intros Hd Hk. rewrite (unsigned_decimal_iff g Hd). split.
  - cbn [matches]. intros (p1 & p2 & g1 & -> & H1 & H2).
    apply Hk in H1. destruct H1 as [H1 ->].
    destruct H2 as [(-> & ->)|(q1 & q2 & g2 & -> & (-> & ->) & H3)].
    + rewrite app_nil_r. auto.
    + apply Hk in H3. destruct H3 as [H3 ->]. split; [|reflexivity].
      right. exists p1, q2. auto.
  - intros [[H|(i & x & -> & Hi & Hx)] ->]; cbn [matches].
    + exists g, [], gs. rewrite app_nil_r. split; [reflexivity|].
      split; [apply Hk; split; [exact H|reflexivity]|]. left. auto.
    + exists i, (chr "." :: x), gs. split; [reflexivity|].
      split; [apply Hk; split; [exact Hi|reflexivity]|]. right.
      exists [chr "."], x, gs. split; [reflexivity|].
      split; [auto|]. apply Hk. split; [exact Hx|reflexivity].
Qed.

Lemma sign_matches (r : re) (shape : str -> bool) pos g gs gs' :
  (forall pos g gs gs', matches r pos g gs gs' <-> shape g = true /\ gs' = gs) ->
  (forall f, shape f = true -> fst (minus_sign f) = false) ->
  matches (Opt (Chr (chr "-")) >> r) pos g gs gs' <->
  signed shape g = true /\ gs' = gs.
Proof.
  intros Hr Hu. unfold signed. split.
  - cbn [matches]. intros (p1 & p2 & g1 & -> & H1 & H2).
    apply Hr in H2. destruct H2 as [H2 ->].
    destruct H1 as [(-> & ->)|(-> & ->)]; simpl.
    + split; [|reflexivity]. pose proof (Hu _ H2) as U.
      destruct p2 as [|c p2]; simpl in *; [exact H2|].
      destruct (N.eqb c (chr "-")); [discriminate U|exact H2].
    + auto.
  - intros [H ->]. cbn [matches]. destruct g as [|c g]; simpl in H.
    + exists [], [], gs. split; [reflexivity|]. split; [left; auto|].
      apply Hr. auto.
    + destruct (N.eqb c (chr "-")) eqn:E; simpl in H.
      * apply N.eqb_eq in E. subst c.
        exists [chr "-"], g, gs. split; [reflexivity|].
        split; [right; auto|]. apply Hr. auto.
      * exists [], (c :: g), gs. split; [reflexivity|].
        split; [left; auto|]. apply Hr. auto.
Qed.

Lemma udec09_matches pos g gs gs' :
  matches udec09 pos g gs gs' <->
  unsigned_decimal is_digit09 g = true /\ gs' = gs.
Proof.
  apply (@fraction_matches (Plus Digit09) is_digit09); [exact digit09_decimal|].
  intros. apply plus09_matches.
Qed.

Lemma sint_matches pos g gs gs' :
  matches sint pos g gs gs' <->
  signed (unsigned_integer is_digit) g = true /\ gs' = gs.
Proof.
  apply sign_matches.
  - intros. apply plusd_matches.
  - intros f. apply (digits_unsigned _ digit_decimal).
Qed.

Lemma sdec_matches pos g gs gs' :
  matches sdec pos g gs gs' <->
  signed (unsigned_decimal is_digit) g = true /\ gs' = gs.
Proof.
  apply sign_matches.
  - intros. apply (@fraction_matches (Plus DigitD) is_digit);
      [exact digit_decimal|].
    intros. apply plusd_matches.
  - intros f. apply (decimal_unsigned _ digit_decimal).
Qed.

(** What the conversions do with what the shapes describe. *)

Lemma minus_sign_none (s : str) :
  fst (minus_sign s) = false -> minus_sign s = (false, s).
Proof.
  destruct s as [|c s]; simpl; [reflexivity|].
  destruct (N.eqb c (chr "-")); [discriminate|reflexivity].
Qed.

Lemma py_int_fits (g : str) :
  signed (unsigned_integer is_digit) g = true ->
  py_int g = if int_fits g
             then Some (if fst (minus_sign g)
                        then (- nat_val (snd (minus_sign g)))%Z
                        else nat_val (snd (minus_sign g)))
             else None.
Proof.
  unfold signed, py_int, int_fits, all_digits.
  destruct (minus_sign g) as [neg d]. cbn [fst snd]. intros ->.
  destruct (too_long (List.length d)); reflexivity.
Qed.

Lemma decimal_of_digits (d : char -> bool) (g : str) :
  digit_class d ->
  unsigned_decimal d g = true -> unsigned_decimal is_digit g = true.
Proof.
  intros Hd H. apply (unsigned_decimal_iff g Hd) in H.
  apply (unsigned_decimal_iff g digit_decimal).
  destruct H as [H|(i & x & E & Hi & Hx)].
  - left. apply (digits_decimal _ Hd H).
  - right. exists i, x. split; [exact E|].
    split; [apply (digits_decimal _ Hd Hi)|apply (digits_decimal _ Hd Hx)].
Qed.

Lemma py_float_defined (g : str) :
  signed (unsigned_decimal is_digit) g = true -> exists q, py_float g = Some q.
Proof.
  unfold signed, unsigned_decimal, py_float, udec_val, all_digits.
  destruct (minus_sign g) as [neg d]. simpl.
  destruct (split_on (chr ".") d) as [|i [|f [|x l]]]; try discriminate.
  - intros ->. simpl. eauto.
  - intros ->. simpl. eauto.
Qed.

Lemma integer09_signed (g : str) :
  unsigned_integer is_digit09 g = true ->
  signed (unsigned_integer is_digit) g = true.
Proof.
  intros H. unfold signed.
  rewrite (minus_sign_none _ (digits_unsigned _ digit09_decimal H)).
  apply (digits_decimal _ digit09_decimal H).
Qed.

Lemma decimal09_signed (g : str) :
  unsigned_decimal is_digit09 g = true ->
  signed (unsigned_decimal is_digit) g = true.
Proof.
  intros H. unfold signed.
  rewrite (minus_sign_none _ (decimal_unsigned _ digit09_decimal H)).
  apply (decimal_of_digits _ digit09_decimal H).
Qed.

(** ** [ROW_PATTERN] against the shape of a row *)

Lemma ROW_PATTERN_layout : ROW_PATTERN = Bol >> row_tail ROW_HEAD ROW_GROUPS.
Proof. reflexivity. Qed.

Lemma ROW_GROUPS_faithful : faithful ROW_HEAD /\ Forall faithful ROW_GROUPS.
Proof.
  split; [intros pos g gs gs'; apply udec09_matches|].
  unfold ROW_GROUPS.
  repeat (apply Forall_cons;
          [intros pos g gs gs';
           first [exact (plus09_matches pos g gs gs')
                 | exact (sint_matches pos g gs gs')
                 | exact (sdec_matches pos g gs gs')]|]).
  apply Forall_nil.
Qed.

Lemma row_tail_matches (fs : list field) :
  forall f pos pre gs gs',
    faithful f -> Forall faithful fs ->
    (matches (row_tail f fs) pos pre gs gs' <->
     exists g texts,
       laid g texts pre /\
       conforms (map field_shape (f :: fs)) (g :: texts) = true /\
       gs' = captured (f :: fs) (g :: texts) gs).
Proof.
  induction fs as [|f' fs IH]; intros [[i r] sh] pos pre gs gs' Hf Hfs.
  - unfold faithful in Hf. simpl in Hf. cbn [row_tail]. unfold ws.
    cbn [matches]. split.
    + intros (p1 & p2 & g1 & -> & (Hw & ->) & g2 & Hm & ->).
      apply Hf in Hm. destruct Hm as [Hs ->].
      exists p2, []. simpl. rewrite Hs. split; [exists p1; auto|auto].
    + intros (g & texts & Hl & Hc & ->). simpl in Hc.
      apply andb_true_iff in Hc. destruct Hc as [Hs Hc].
      destruct texts; [|discriminate Hc]. simpl in Hl.
      destruct Hl as (w & -> & Hw).
      exists w, g, gs. split; [reflexivity|]. split; [auto|].
      exists gs. split; [apply Hf; auto|reflexivity].
  - inversion Hfs as [|? ? Hf' Hfs']; subst.
    pose proof (IH f') as IH'. clear IH.
    unfold faithful in Hf. simpl in Hf.
    cbn [row_tail]. unfold ws, comma. cbn [matches]. split.
    + intros (p1 & p2 & g1 & -> & (Hw & ->) & q1 & q2 & g2 & -> &
              (g3 & Hm & ->) & w' & q3 & g4 & -> & (Hw' & ->) &
              c & tl & g5 & -> & (-> & ->) & Ht).
      apply Hf in Hm. destruct Hm as [Hs ->].
      apply IH' in Ht; auto. destruct Ht as (g' & texts & Hl & Hc & ->).
      exists q1, (g' :: texts). split; [|split].
      * simpl. exists p1, w', tl. auto.
      * change (sh q1 && conforms (map field_shape (f' :: fs)) (g' :: texts)
                = true).
        rewrite Hs, Hc. reflexivity.
      * reflexivity.
    + intros (g & texts & Hl & Hc & ->).
      change (sh g && conforms (map field_shape (f' :: fs)) texts = true) in Hc.
      apply andb_true_iff in Hc. destruct Hc as [Hs Hc].
      destruct texts as [|g' texts]; [discriminate Hc|].
      simpl in Hl. destruct Hl as (w & w' & tl & -> & Hw & Hw' & Hl).
      exists w, (g ++ w' ++ chr "," :: tl), gs. split; [reflexivity|].
      split; [auto|].
      exists g, (w' ++ chr "," :: tl), ((i, g) :: gs). split; [reflexivity|].
      split; [exists gs; split; [apply Hf; auto|reflexivity]|].
      exists w', (chr "," :: tl), ((i, g) :: gs). split; [reflexivity|].
      split; [auto|].
      exists [chr ","], tl, ((i, g) :: gs). split; [reflexivity|].
      split; [auto|].
      apply IH'; auto. exists g', texts. auto.
Qed.

Lemma blank_lacks_comma (w : str) : blank w -> lacks (chr ",") w.
Proof.
  unfold blank, lacks. rewrite !forallb_forall. intros H c Hc.
  specialize (H c Hc). destruct (N.eqb c (chr ",")) eqn:E; [|reflexivity].
  apply N.eqb_eq in E. subst c. discriminate H.
Qed.

(** Splitting at the commas and stripping gives back the texts laid out. *)
Lemma laid_fields (texts : list str) :
  forall g pre,
    laid g texts pre -> Forall (solid (chr ",")) (g :: texts) ->
    fields_of pre = g :: texts.
Proof.
  unfold fields_of.
  induction texts as [|g' texts IH]; intros g pre Hl Hs; simpl in Hl.
  - destruct Hl as (w & -> & Hw). inversion Hs as [|? ? Hg _]; subst.
    rewrite split_on_lacks.
    + simpl. rewrite <- (app_nil_r g) at 1.
      rewrite (@strip_pad (chr ",") w g []); auto. reflexivity.
    + apply lacks_app; [apply blank_lacks_comma; exact Hw|].
      eapply solid_lacks; exact Hg.
  - destruct Hl as (w & w' & tl & -> & Hw & Hw' & Hl).
    inversion Hs as [|? ? Hg Hs']; subst.
    replace (w ++ g ++ w' ++ chr "," :: tl)
      with ((w ++ g ++ w') ++ chr "," :: tl)
      by (rewrite <- !app_assoc; reflexivity).
    rewrite split_on_app.
    + simpl. rewrite (@strip_pad (chr ",") w g w'); auto.
      rewrite (IH _ _ Hl Hs'). reflexivity.
    + repeat apply lacks_app; try (apply blank_lacks_comma; assumption).
      eapply solid_lacks; exact Hg.
Qed.

(** The fields of a line, stripped, are laid out in the line up to the
    white space that ends it. *)
Lemma fields_laid (raws : list str) :
  forall raw,
    exists pre b,
      join (chr ",") (raw :: raws) = pre ++ b /\ blank b /\
      laid (strip raw) (map strip raws) pre.
Proof.
  induction raws as [|raw' raws IH]; intros raw.
  - destruct (strip_split raw) as (a & b & E & Ha & Hb).
    exists (a ++ strip raw), b. simpl. split; [|split; [exact Hb|]].
    + rewrite <- app_assoc. exact E.
    + exists a. auto.
  - destruct (IH raw') as (pre & b & E & Hb & Hl).
    destruct (strip_split raw) as (a & b' & E' & Ha & Hb').
    exists (a ++ strip raw ++ b' ++ chr "," :: pre), b.
    split; [|split; [exact Hb|]].
    + change (join (chr ",") (raw :: raw' :: raws))
        with (raw ++ chr "," :: join (chr ",") (raw' :: raws)).
      rewrite E. rewrite E' at 1. rewrite <- !app_assoc. simpl.
      reflexivity.
    + simpl. exists a, b', pre. auto.
Qed.

Lemma conforms_solid (shapes : list (str -> bool)) :
  Forall (fun sh => forall f, sh f = true -> solid (chr ",") f) shapes ->
  forall texts, conforms shapes texts = true -> Forall (solid (chr ",")) texts.
Proof.
  induction 1 as [|sh shapes Hsh _ IH]; intros [|g texts] Hc;
    simpl in Hc; try discriminate Hc; constructor.
  - apply andb_true_iff in Hc. apply Hsh. tauto.
  - apply andb_true_iff in Hc. apply IH. tauto.
Qed.

Lemma ROW_FIELDS_numeric :
  Forall (fun sh => forall f, sh f = true ->
                              f <> [] /\ forallb numeric f = true) ROW_FIELDS.
Proof.
  unfold ROW_FIELDS.
  repeat (apply Forall_cons;
          [intros f Hf;
           first [ apply (decimal_numeric _ digit09_decimal Hf)
                 | apply (integer_numeric _ digit09_decimal Hf)
                 | apply (@signed_numeric (unsigned_integer is_digit) f
                            (fun f => integer_numeric f digit_decimal) Hf)
                 | apply (@signed_numeric (unsigned_decimal is_digit) f
                            (fun f => decimal_numeric f digit_decimal) Hf) ]|]).
  apply Forall_nil.
Qed.

Lemma ROW_FIELDS_solid :
  Forall (fun sh => forall f, sh f = true -> solid (chr ",") f) ROW_FIELDS.
Proof.
  eapply Forall_impl; [|exact ROW_FIELDS_numeric].
  intros sh H f Hf. apply numeric_is_solid. apply H. exact Hf.
Qed.

(** A successful match cuts the line into a prefix of the row layout and
    the rest. *)
Lemma re_match_row (line : str) (m : caps) :
  re_match ROW_PATTERN line = Some m ->
  exists pre post g texts,
    line = pre ++ post /\ laid g texts pre /\
    conforms ROW_FIELDS (g :: texts) = true /\
    m = captured (ROW_HEAD :: ROW_GROUPS) (g :: texts) [].
Proof.
  unfold re_match. intros H. apply exec_sound in H.
  destruct H as (pre & post & gs' & -> & Hm & Hk). inversion Hk; subst gs'.
  rewrite ROW_PATTERN_layout in Hm. cbn [matches] in Hm.
  destruct Hm as (p1 & p2 & g1 & -> & (_ & -> & ->) & Hm).
  destruct ROW_GROUPS_faithful as [F1 F2].
  apply (row_tail_matches _ _ _ _ F1 F2) in Hm.
  destruct Hm as (g & texts & Hl & Hc & ->).
  exists p2, post, g, texts. auto.
Qed.

Lemma row_layout_matches (pre post g : str) (texts : list str) :
  laid g texts pre -> conforms ROW_FIELDS (g :: texts) = true ->
  re_match ROW_PATTERN (pre ++ post) <> None.
Proof.
  intros Hl Hc. unfold re_match.
  apply exec_complete
    with (gs' := captured (ROW_HEAD :: ROW_GROUPS) (g :: texts) []);
    [|discriminate].
  rewrite ROW_PATTERN_layout. cbn [matches].
  exists [], pre, []. split; [reflexivity|]. split; [auto|].
  destruct ROW_GROUPS_faithful as [F1 F2].
  apply (row_tail_matches _ _ _ _ F1 F2). exists g, texts. auto.
Qed.

(** A line matches exactly when it begins with a row. *)
Lemma re_match_shape (line : str) :
  re_match ROW_PATTERN line <> None <->
  exists p rest, line = p ++ rest /\ row_shape p = true.
Proof.
  split.
  - intros H. destruct (re_match ROW_PATTERN line) as [m|] eqn:E;
      [|contradiction].
    destruct (re_match_row _ E) as (pre & post & g & texts & -> & Hl & Hc & _).
    exists pre, post. split; [reflexivity|]. unfold row_shape.
    rewrite (laid_fields _ Hl); [exact Hc|].
    apply (conforms_solid ROW_FIELDS_solid). exact Hc.
  - intros (p & rest & -> & H). unfold row_shape, fields_of in H.
    pose proof (split_on_join (chr ",") p) as J.
    destruct (split_on_cons (chr ",") p) as (raw & raws & E).
    rewrite E in H, J.
    destruct (fields_laid raws raw) as (pre & b & Ej & Hb & Hl).
    rewrite J in Ej. clear E J. subst p. rewrite <- app_assoc.
    eapply row_layout_matches; [exact Hl|exact H].
Qed.

(** The seven texts of a row. *)
Lemma conforms_seven (shapes : list (str -> bool)) (texts : list str) :
  List.length shapes = 7 -> conforms shapes texts = true ->
  exists g1 g2 g3 g4 g5 g6 g7, texts = [g1; g2; g3; g4; g5; g6; g7].
Proof.
  intros Hn Hc.
  assert (L : forall sh tx, conforms sh tx = true ->
                            List.length tx = List.length sh).
  { induction sh as [|s sh IH]; intros [|t tx] H; simpl in H;
      try discriminate H; [reflexivity|].
    apply andb_true_iff in H. simpl. f_equal. apply IH. tauto. }
  apply L in Hc. rewrite Hn in Hc.
  destruct texts as [|g1 [|g2 [|g3 [|g4 [|g5 [|g6 [|g7 [|x l]]]]]]]];
    try discriminate Hc.
  exists g1, g2, g3, g4, g5, g6, g7. reflexivity.
Qed.

(** What the conversions of lines 42-50 make of the groups of a row: a
    row when the five integers are short enough for [int()], and
    [ValueError] otherwise. *)
Lemma row_of_groups_fits (texts : list str) :
  conforms ROW_FIELDS texts = true ->
  (conforms ROW_LIMITS texts = true ->
   exists row,
     row_of_groups (captured (ROW_HEAD :: ROW_GROUPS) texts []) = Some row) /\
  (conforms ROW_LIMITS texts = false ->
   row_of_groups (captured (ROW_HEAD :: ROW_GROUPS) texts []) = None).
Proof.
  intros Hc.
  destruct (@conforms_seven ROW_FIELDS texts eq_refl Hc)
    as (g1 & g2 & g3 & g4 & g5 & g6 & g7 & ->).
  cbn [conforms ROW_FIELDS] in Hc. rewrite andb_true_r in Hc.
  repeat match type of Hc with
         | _ && _ = true => apply andb_true_iff in Hc; destruct Hc as [? Hc]
         end.
  unfold row_of_groups, group_float, group_int.
  cbn [captured ROW_HEAD ROW_GROUPS fst group Nat.eqb bind].
  destruct (py_float_defined g1) as [q1 ->];
    [apply decimal09_signed; assumption|].
  destruct (py_float_defined g7) as [q7 ->]; [assumption|].
  rewrite (@py_int_fits g2) by (apply integer09_signed; assumption).
  rewrite (@py_int_fits g3), (@py_int_fits g4), (@py_int_fits g5),
    (@py_int_fits g6) by assumption.
  cbn [conforms ROW_LIMITS any_length bind andb].
  destruct (int_fits g2); cbn [bind andb];
    [|split; [discriminate|reflexivity]].
  destruct (int_fits g3); cbn [bind andb];
    [|split; [discriminate|reflexivity]].
  destruct (int_fits g4); cbn [bind andb];
    [|split; [discriminate|reflexivity]].
  destruct (int_fits g5); cbn [bind andb];
    [|split; [discriminate|reflexivity]].
  destruct (int_fits g6); cbn [bind andb];
    [|split; [discriminate|reflexivity]].
  split; [eauto|discriminate].
Qed.

(** *** The first six fields do not depend on where the row is cut *)

Lemma prefix_or (A : Type) (a b x y : list A) :
  a ++ x = b ++ y -> (exists z, b = a ++ z) \/ (exists z, a = b ++ z).
Proof.
  revert b. induction a as [|c a IH]; intros b H.
  - left. exists b. reflexivity.
  - destruct b as [|d b].
    + right. exists (c :: a). reflexivity.
    + simpl in H. inversion H; subst.
      destruct (IH b H2) as [[z ->]|[z ->]]; [left|right]; exists z;
        reflexivity.
Qed.

(** Text added to a line without adding a field changes the last field
    only. *)
Lemma split_on_longer (sep : char) (a z : str) :
  List.length (split_on sep (a ++ z)) = List.length (split_on sep a) ->
  exists l f f',
    split_on sep a = l ++ [f] /\ split_on sep (a ++ z) = l ++ [f'].
Proof.
  induction a as [|c a IH]; intros H.
  - simpl in *. destruct (split_on sep z) as [|f' [|y l]]; try discriminate H.
    exists [], [], f'. split; reflexivity.
  - simpl in *. destruct (N.eqb c sep).
    + simpl in H. inversion H as [H'].
      destruct (IH H') as (l & f & f' & E1 & E2).
      exists ([] :: l), f, f'. rewrite E1, E2. split; reflexivity.
    + destruct (split_on_cons sep a) as (f0 & fs & E0).
      destruct (split_on_cons sep (a ++ z)) as (g0 & gs & E1).
      rewrite E0, E1 in *. simpl in H.
      destruct (IH H) as (l & f & f' & F1 & F2).
      destruct l as [|x l].
      * simpl in F1, F2. inversion F1; inversion F2; subst.
        exists [], (c :: f), (c :: f'). split; reflexivity.
      * simpl in F1, F2. inversion F1; inversion F2; subst.
        exists ((c :: x) :: l), f, f'. split; reflexivity.
Qed.

Lemma conforms_length (shapes : list (str -> bool)) (texts : list str) :
  conforms shapes texts = true -> List.length texts = List.length shapes.
Proof.
  revert texts. induction shapes as [|s sh IH]; intros [|t tx] H; simpl in H;
    try discriminate H; [reflexivity|].
  apply andb_true_iff in H. simpl. f_equal. apply IH. tauto.
Qed.

Lemma row_fits_last (l : list str) (x y : str) :
  List.length l = 6 ->
  conforms ROW_LIMITS (l ++ [x]) = conforms ROW_LIMITS (l ++ [y]).
Proof.
  intros H.
  destruct l as [|g1 [|g2 [|g3 [|g4 [|g5 [|g6 [|z l]]]]]]]; try discriminate H.
  reflexivity.
Qed.

(** Two rows that begin the same line agree on whether their integers
    fit. *)
Lemma row_fits_prefix (p q x y : str) :
  p ++ x = q ++ y -> row_shape p = true -> row_shape q = true ->
  row_fits p = row_fits q.
Proof.
  assert (L : forall a z, row_shape a = true -> row_shape (a ++ z) = true ->
                          row_fits a = row_fits (a ++ z)).
  { intros a z Ha Hz. unfold row_shape, row_fits, fields_of in *.
    pose proof (conforms_length _ _ Ha) as La.
    pose proof (conforms_length _ _ Hz) as Lz.
    rewrite length_map in La, Lz.
    destruct (@split_on_longer (chr ",") a z) as (l & f & f' & E1 & E2);
      [congruence|].
    rewrite E1, E2, !map_app. cbn [map]. apply row_fits_last.
    rewrite E1, length_app in La. rewrite length_map. simpl in La.
    change (List.length ROW_FIELDS) with 7 in La. lia. }
  intros E Hp Hq. destruct (prefix_or _ _ _ _ E) as [[z ->]|[z ->]].
  - apply L; assumption.
  - symmetry. apply L; assumption.
Qed.

(** The outcome of [parse_row] on a line that matches. *)
Lemma parse_row_match (line : str) (m : caps) :
  re_match ROW_PATTERN line = Some m ->
  exists pre post,
    line = pre ++ post /\ row_shape pre = true /\
    (row_fits pre = true -> exists row, parse_row line = Ok (Some row)) /\
    (row_fits pre = false -> parse_row line = Err ValueError).
Proof.
  intros E. destruct (re_match_row _ E)
    as (pre & post & g & texts & -> & Hl & Hc & Hm).
  exists pre, post. split; [reflexivity|].
  assert (F : fields_of pre = g :: texts).
  { apply (laid_fields _ Hl). apply (conforms_solid ROW_FIELDS_solid _ Hc). }
  unfold row_shape, row_fits. rewrite F. split; [exact Hc|].
  destruct (row_of_groups_fits _ Hc) as [H1 H2].
  unfold parse_row. rewrite E, Hm. split.
  - intros Hf. destruct (H1 Hf) as [row ->]. eauto.
  - intros Hf. rewrite (H2 Hf). reflexivity.
Qed.

Lemma parse_row_no_match (line : str) :
  re_match ROW_PATTERN line = None -> parse_row line = Ok None.
Proof. intros E. unfold parse_row. rewrite E. reflexivity. Qed.

(** [parse_row] raises nothing but [ValueError]. *)
Lemma parse_row_error (line : str) (e : error) :
  parse_row line = Err e -> e = ValueError.
Proof.
  unfold parse_row. destruct (re_match ROW_PATTERN line); [|discriminate].
  destruct (row_of_groups _); [discriminate|]. intros H. inversion H.
  reflexivity.
Qed.

(** C3, as the code has it: [parse_row] returns a row exactly when the
    line begins with seven comma-separated numeric fields of the shapes
    asked for, white space around each field ignored, whose five integers
    are short enough for [int()]; it raises [ValueError] exactly when the
    line begins with such fields and one of the integers is too long; and
    it returns [None] exactly when the line does not begin with such
    fields.  Whatever follows the seventh number is not looked at. *)
Theorem parse_row_accepts_prefix (line : str) :
  ((exists row, parse_row line = Ok (Some row)) <->
   (exists p rest,
       line = p ++ rest /\ row_shape p = true /\ row_fits p = true)) /\
  (parse_row line = Err ValueError <->
   (exists p rest,
       line = p ++ rest /\ row_shape p = true /\ row_fits p = false)) /\
  (parse_row line = Ok None <->
   ~ exists p rest, line = p ++ rest /\ row_shape p = true).
Proof.
  destruct (re_match ROW_PATTERN line) as [m|] eqn:E.
  - destruct (parse_row_match _ E) as (pre & post & El & Hs & H1 & H2).
    assert (U : forall p rest, line = p ++ rest -> row_shape p = true ->
                               row_fits p = row_fits pre).
    { intros p rest Ep Hp. apply (@row_fits_prefix p pre rest post);
        [congruence|assumption|assumption]. }
    destruct (row_fits pre) eqn:F.
    + destruct (H1 eq_refl) as [row Hr]. split; [|split].
      * split; [intros _; exists pre, post; auto|intros _; eauto].
      * rewrite Hr. split; [discriminate|].
        intros (p & rest & Ep & Hp & Hf).
        rewrite (U _ _ Ep Hp) in Hf. discriminate Hf.
      * rewrite Hr. split; [discriminate|].
        intros Hn. exfalso. apply Hn. exists pre, post. auto.
    + rewrite (H2 eq_refl). split; [|split].
      * split; [intros [row Hr]; discriminate Hr|].
        intros (p & rest & Ep & Hp & Hf).
        rewrite (U _ _ Ep Hp) in Hf. discriminate Hf.
      * split; [intros _; exists pre, post; auto|reflexivity].
      * split; [discriminate|].
        intros Hn. exfalso. apply Hn. exists pre, post. auto.
  - rewrite (parse_row_no_match _ E).
    assert (N0 : ~ exists p rest, line = p ++ rest /\ row_shape p = true).
    { intros H. apply re_match_shape in H. congruence. }
    split; [|split].
    + split; [intros [row Hr]; discriminate Hr|].
      intros (p & rest & Ep & Hp & _). exfalso. apply N0. eauto.
    + split; [discriminate|].
      intros (p & rest & Ep & Hp & _). exfalso. apply N0. eauto.
    + split; [intros _; exact N0|reflexivity].
Qed.

(** ** Loops *)

Lemma loop_step (St R : Type) (body : St -> world -> flow St R * world)
      (n : nat) (s : St) (w : world) :
  loop body (S n) s w
  = match body s w with
    | (Continue s', w') => loop body n s' w'
    | (Break r, w') => (Break r, w')
    | (Raise e s', w') => (Raise e s', w')
    end.
Proof. reflexivity. Qed.

(** ** The passes of the capture loop *)

Lemma is_empty_true (s : str) : is_empty s = true -> s = [].
Proof. destruct s; [reflexivity|discriminate]. Qed.

(** What [collect] does with a line: it raises when [parse_row] does,
    and otherwise appends the row of the line, if it has one. *)
Lemma collect_cases (line : str) (st : cstate) :
  (raises line = true /\ row_of line = [] /\
   collect line st = Err ValueError) \/
  (raises line = false /\
   exists st2,
     collect line st = Ok st2 /\
     rows st2 = rows st ++ row_of line /\
     collecting st2 = collecting st /\ sent_stop st2 = sent_stop st /\
     monitor_start_wall st2 = monitor_start_wall st /\
     (st2 = st \/
      exists r, st2 = {| rows := rows st ++ [r]; collecting := collecting st;
                         sent_stop := sent_stop st;
                         monitor_start_wall := monitor_start_wall st |})).
Proof.
  unfold collect, raises, row_of.
  destruct (parse_row line) as [[r|]|e] eqn:E.
  - right. split; [reflexivity|]. eexists. split; [reflexivity|].
    cbn. repeat split; eauto.
  - right. split; [reflexivity|]. exists st. rewrite app_nil_r.
    repeat split; auto.
  - left. rewrite (parse_row_error _ E). auto.
Qed.

(** What [on_line] does with a line: nothing but the start marker is
    looked at while no session is being collected; a line on which
    [parse_row] raises leaves the loop with that exception; every other
    line is collected, the soft deadline is looked at, and the loop is
    left when the line ends the session. *)
Lemma on_line_cases (p : params) (line : str) (st : cstate) (w : world) :
  let st1 := fst (mark_start line st w) in
  let w1 := snd (mark_start line st w) in
  (collecting st1 = false /\ on_line p line st w = (Continue st1, w1)) \/
  (collecting st1 = true /\ raises line = true /\ row_of line = [] /\
   on_line p line st w = (Raise ValueError st1, w1)) \/
  (collecting st1 = true /\ raises line = false /\
   exists st2,
     collect line st1 = Ok st2 /\
     on_line p line st w
     = ((if ends_session line
         then Break (fst (soft_deadline p st2 w1))
         else Continue (fst (soft_deadline p st2 w1))),
        snd (soft_deadline p st2 w1))).
Proof.
  intros st1 w1. unfold on_line. fold st1 w1.
  replace (mark_start line st w) with (st1, w1)
    by (unfold st1, w1; destruct (mark_start line st w); reflexivity).
  destruct (collecting st1) eqn:Ec; [|left; auto]. right.
  destruct (collect_cases line st1)
    as [(Hr & Ho & ->)|(Hr & st2 & -> & _)].
  - left. auto.
  - right. split; [reflexivity|]. split; [exact Hr|]. exists st2.
    split; [reflexivity|]. unfold ends_session.
    destruct (soft_deadline p st2 w1) as [st3 w3].
    destruct (contains SESSION_END line || contains STOPPED_PHRASE line);
      reflexivity.
Qed.

(** *** What every pass keeps

    A property of the state and the world that reading the clock, reading
    a line, sending the stop command while collecting, seeing the start
    marker and appending a row keep is kept by every pass and by the
    loop, however the loop is left. *)

Section PassInvariant.

Variable Inv : cstate -> world -> Prop.

Hypothesis Inv_time : forall st w, Inv st w -> Inv st (snd (time_time w)).
Hypothesis Inv_read : forall st w, Inv st w -> Inv st (snd (readline w)).
Hypothesis Inv_stop :
  forall st w,
    Inv st w -> sent_stop st = false -> collecting st = true ->
    Inv (set_sent_stop st) (write CMD_STOP w).
Hypothesis Inv_start :
  forall st w t,
    Inv st w ->
    Inv {| rows := rows st; collecting := true; sent_stop := sent_stop st;
           monitor_start_wall := Some t |} w.
Hypothesis Inv_row :
  forall st w r,
    Inv st w -> collecting st = true ->
    Inv {| rows := rows st ++ [r]; collecting := collecting st;
           sent_stop := sent_stop st;
           monitor_start_wall := monitor_start_wall st |} w.

Lemma hard_deadline_keeps p sw st w :
  Inv st w ->
  match hard_deadline p sw st w with
  | (Some st', w') => Inv st' w'
  | (None, w') => Inv st w'
  end.
Proof.
  intros H. unfold hard_deadline.
  destruct (Qgtb (timeout p) 0); [|exact H].
  pose proof (Inv_time H) as H1. cbn [time_time snd] in H1.
  cbn [time_time]. destruct (Qgtb _ (timeout p)); [|exact H1].
  destruct (collecting st) eqn:Ec; [|exact H1].
  destruct (sent_stop st) eqn:Es; [exact H1|]. cbn [negb andb].
  apply Inv_stop; assumption.
Qed.

Lemma mark_start_keeps line st w :
  Inv st w -> Inv (fst (mark_start line st w)) (snd (mark_start line st w)).
Proof.
  intros H. unfold mark_start.
  destruct (contains SESSION_START line); [|exact H].
  cbn [time_time fst snd]. apply Inv_start.
  apply (Inv_time H).
Qed.

Lemma soft_deadline_keeps p st w :
  Inv st w -> collecting st = true ->
  Inv (fst (soft_deadline p st w)) (snd (soft_deadline p st w)).
Proof.
  intros H Hc. unfold soft_deadline.
  destruct (duration p) as [d|]; [|exact H].
  destruct (sent_stop st) eqn:Es; [exact H|].
  destruct (monitor_start_wall st) as [t0|]; [|exact H].
  pose proof (Inv_time H) as H1. cbn [time_time snd] in H1.
  cbn [time_time]. destruct (Qgeb _ d); cbn [fst snd]; [|exact H1].
  apply Inv_stop; assumption.
Qed.

Lemma on_line_keeps p line st w :
  Inv st w ->
  match on_line p line st w with
  | (Continue st', w') | (Break st', w') | (Raise _ st', w') => Inv st' w'
  end.
Proof.
  intros H. pose proof (mark_start_keeps line H) as H1.
  destruct (on_line_cases p line st w)
    as [(Ec & ->)|[(Ec & _ & _ & ->)|(Ec & _ & st2 & Eo & ->)]];
    [exact H1|exact H1|].
  assert (H2 : Inv st2 (snd (mark_start line st w)) /\
               collecting st2 = true).
  { destruct (collect_cases line (fst (mark_start line st w)))
      as [(_ & _ & E)|(_ & st2' & E & _ & Hc & _ & _ & Hs)];
      rewrite E in Eo; [discriminate Eo|].
    inversion Eo; subst st2'. split; [|congruence].
    destruct Hs as [->|[r ->]]; [exact H1|]. apply Inv_row; assumption. }
  destruct H2 as [H2 Hc2].
  pose proof (soft_deadline_keeps p H2 Hc2) as H3.
  destruct (ends_session line); exact H3.
Qed.

Lemma read_line_keeps p st w :
  Inv st w ->
  match read_line p st w with
  | (Continue st', w') | (Break st', w') | (Raise _ st', w') => Inv st' w'
  end.
Proof.
  intros H. unfold read_line. pose proof (Inv_read H) as H1.
  cbn [readline snd] in H1. cbn [readline].
  destruct (is_empty (device w (reads w))); [exact H1|].
  destruct (is_empty (strip (device w (reads w)))); [exact H1|].
  apply on_line_keeps. exact H1.
Qed.

Lemma capture_body_keeps p sw st w :
  Inv st w ->
  match capture_body p sw st w with
  | (Continue st', w') | (Break st', w') | (Raise _ st', w') => Inv st' w'
  end.
Proof.
  intros H. unfold capture_body.
  pose proof (hard_deadline_keeps p sw H) as H1.
  destruct (hard_deadline p sw st w) as [[st1|] w1]; [|exact H1].
  apply read_line_keeps. exact H1.
Qed.

Lemma capture_loop_keeps fuel p sw :
  forall st w,
    Inv st w ->
    match capture_loop fuel p sw st w with
    | (Continue st', w') | (Break st', w') | (Raise _ st', w') => Inv st' w'
    end.
Proof.
  unfold capture_loop. induction fuel as [|n IH]; intros st w H;
    [exact H|].
  rewrite loop_step. pose proof (capture_body_keeps p sw H) as Hb.
  destruct (capture_body p sw st w) as [[st'|st'|e st'] w'];
    [apply IH; exact Hb|exact Hb|exact Hb].
Qed.

End PassInvariant.

(** ** The stop command *)

Lemma count_stop_app (a b : list str) :
  count_stop (a ++ b) = count_stop a + count_stop b.
Proof. apply count_occ_app. Qed.

Lemma count_stop_sent (st : cstate) : count_stop (sent st) <= 1.
Proof. unfold sent. destruct (sent_stop st); vm_compute; lia. Qed.

(** The chunks written by the loop: what was written before, and the stop
    command when the state says so. *)
Lemma capture_loop_tx fuel p sw base st w :
  tx w = base ++ sent st ->
  match capture_loop fuel p sw st w with
  | (Continue st', w') | (Break st', w') | (Raise _ st', w') =>
      tx w' = base ++ sent st'
  end.
Proof.
  apply (@capture_loop_keeps (fun st w => tx w = base ++ sent st)); auto.
  intros st0 w0 H Hs _. cbn [write tx]. rewrite H. unfold sent.
  rewrite Hs. cbn [set_sent_stop sent_stop]. rewrite app_nil_r. reflexivity.
Qed.

Lemma capture_loop_tx_initial fuel p sw w :
  exists st',
    state_of (fst (capture_loop fuel p sw initial w)) = Some st' /\
    tx (snd (capture_loop fuel p sw initial w)) = tx w ++ sent st'.
Proof.
  pose proof (@capture_loop_tx fuel p sw (tx w) initial w) as H.
  cbn [sent initial sent_stop] in H. rewrite app_nil_r in H.
  specialize (H eq_refl).
  destruct (capture_loop fuel p sw initial w) as [[st'|st'|e st'] w'];
    exists st'; auto.
Qed.

Lemma tare_loop_tx fuel ts tt saw w :
  tx (snd (tare_loop fuel ts tt saw w)) = tx w.
Proof.
  unfold tare_loop. revert saw w.
  induction fuel as [|n IH]; intros saw w; simpl; [reflexivity|].
  unfold tare_body, time_time, readline.
  destruct (Qgtb _ tt); [reflexivity|]. cbn [device reads].
  destruct (is_empty (device w (reads w))); [rewrite IH; reflexivity|].
  destruct (is_empty (strip (device w (reads w)))); [rewrite IH; reflexivity|].
  destruct (tare_line _ saw); [rewrite IH|..]; reflexivity.
Qed.

(** What the session writes: the tare command, then the monitor command
    when the handshake has succeeded, then the stop command when the loop
    has sent it. *)
Lemma session_tx (fuel_tare fuel : nat) (p : params) (w : world) :
  let out := tx (snd (capture_monitor_session fuel_tare fuel p w)) in
  out = tx w ++ [CMD_TARE] \/
  out = tx w ++ [CMD_TARE; CMD_MONITOR] \/
  out = tx w ++ [CMD_TARE; CMD_MONITOR; CMD_STOP].
Proof.
  cbv zeta. unfold capture_monitor_session, run_tare_before_monitor.
  cbn [time_time fst snd].
  match goal with
  | |- context [tare_loop fuel_tare ?ts ?tt false ?w2] =>
      pose proof (tare_loop_tx fuel_tare ts tt false w2) as T;
      destruct (tare_loop fuel_tare ts tt false w2) as [f w3]
  end.
  cbn [tx write snd] in T.
  destruct f as [s|r|e s]; cbn [settle snd]; [left; exact T| |left; exact T].
  unfold monitor_phase. cbn [time_time].
  match goal with
  | |- context [capture_loop fuel p ?sw initial ?w4] =>
      destruct (capture_loop_tx_initial fuel p sw w4) as (st' & _ & H);
      destruct (capture_loop fuel p sw initial w4) as [f5 w5]
  end.
  cbn [snd tx write] in H.
  assert (E : tx w5 = tx w ++ [CMD_TARE; CMD_MONITOR] ++ sent st')
    by (rewrite H, T, <- !app_assoc; reflexivity).
  assert (G : tx w5 = tx w ++ [CMD_TARE; CMD_MONITOR] \/
              tx w5 = tx w ++ [CMD_TARE; CMD_MONITOR; CMD_STOP]).
  { rewrite E. unfold sent. destruct (sent_stop st'); [right|left];
      reflexivity. }
  right. destruct f5 as [s5|s5|e5 s5]; exact G.
Qed.

(** C1: the stop command is written at most once, whatever lines arrive
    and however many passes see a deadline exceeded; this holds of the
    capture loop from its initial state and of the whole session. *)
Theorem stop_written_at_most_once :
  (forall fuel p start_wall w,
      count_stop (tx (snd (capture_loop fuel p start_wall initial w)))
      <= count_stop (tx w) + 1) /\
  (forall fuel_tare fuel p w,
      count_stop (tx (snd (capture_monitor_session fuel_tare fuel p w)))
      <= count_stop (tx w) + 1).
Proof.
  split.
  - intros fuel p sw w.
    destruct (capture_loop_tx_initial fuel p sw w) as (st' & _ & ->).
    rewrite count_stop_app. pose proof (count_stop_sent st'). lia.
  - intros ft fuel p w.
    assert (C1 : count_stop [CMD_TARE] = 0) by reflexivity.
    assert (C2 : count_stop [CMD_TARE; CMD_MONITOR] = 0) by reflexivity.
    assert (C3 : count_stop [CMD_TARE; CMD_MONITOR; CMD_STOP] = 1)
      by reflexivity.
    destruct (session_tx ft fuel p w) as [E|[E|E]];
      rewrite E, count_stop_app; lia.
Qed.

(** ** The hard timeout *)

Lemma Qgtb_true (a b : Q) : Qgtb a b = true <-> (b < a)%Q.
Proof.
  unfold Qgtb. rewrite negb_true_iff. split.
  - intros H. apply Qnot_le_lt. intros L.
    apply Qle_bool_iff in L. congruence.
  - intros H. destruct (Qle_bool a b) eqn:E; [|reflexivity].
    apply Qle_bool_iff in E. exfalso. apply (Qlt_not_le _ _ H). exact E.
Qed.

Lemma Qgtb_false (a b : Q) : Qgtb a b = false <-> (a <= b)%Q.
Proof.
  unfold Qgtb. rewrite negb_false_iff. apply Qle_bool_iff.
Qed.

(** C2, as the code has it: with a positive timeout, a pass that finds the
    hard deadline exceeded leaves the loop at once, rows untouched and
    nothing written, when a stop has been sent already or the session
    start has not been seen yet; when the session is being collected and
    no stop has been sent, it writes the stop command once, records that,
    and goes on to read. *)
Theorem hard_deadline_exceeded (p : params) (start_wall : Q) (st : cstate)
        (w : world) :
  (0 < timeout p)%Q ->
  (timeout p < clock w (ticks w) - start_wall)%Q ->
  let w1 := snd (time_time w) in
  tx w1 = tx w /\
  (sent_stop st = true \/ collecting st = false ->
   capture_body p start_wall st w = (Break st, w1)) /\
  (collecting st = true -> sent_stop st = false ->
   capture_body p start_wall st w
   = read_line p (set_sent_stop st) (write CMD_STOP w1) /\
   tx (write CMD_STOP w1) = tx w ++ [CMD_STOP]).
Proof.
  intros H0 H1 w1. apply Qgtb_true in H0. apply Qgtb_true in H1.
  split; [reflexivity|]. unfold capture_body, hard_deadline.
  rewrite H0. cbn [time_time]. rewrite H1. split.
  - intros [H| H]; rewrite H; [|reflexivity].
    rewrite andb_false_r. reflexivity.
  - intros Hc Hs. rewrite Hc, Hs. split; reflexivity.
Qed.

(** ** Which lines become rows *)

Lemma no_marker_in_nothing :
  contains SESSION_START [] = false /\ ends_session [] = false /\
  parse_row [] = Ok None /\ raises [] = false /\ row_of [] = [].
Proof. repeat split. Qed.

Lemma scan_nothing (acc : bool * list DataRow) : scan acc [] = acc.
Proof.
  destruct acc as [c rs]. unfold scan.
  destruct no_marker_in_nothing as (-> & _ & _ & _ & ->). cbn [fst snd].
  rewrite orb_false_r, app_nil_r. destruct c; reflexivity.
Qed.

Lemma pass_end_nothing (acc : bool * list DataRow) (st : cstate) :
  pass_end acc [] st = Continue st.
Proof.
  unfold pass_end. destruct no_marker_in_nothing as (_ & -> & _ & -> & _).
  rewrite andb_false_r. reflexivity.
Qed.

Lemma fold_scan_collecting (ls : list str) :
  forall rs, fold_left scan ls (true, rs) = (true, rs ++ parsed_rows ls).
Proof.
  induction ls as [|l ls IH]; intros rs; simpl.
  - rewrite app_nil_r. reflexivity.
  - unfold scan at 2. simpl. rewrite IH, <- app_assoc. reflexivity.
Qed.

Lemma fold_scan_waiting (ls : list str) :
  forall rs,
    snd (fold_left scan ls (false, rs)) = rs ++ parsed_rows (from_marker ls).
Proof.
  induction ls as [|l ls IH]; intros rs; simpl.
  - rewrite app_nil_r. reflexivity.
  - unfold scan at 2. simpl. destruct (contains SESSION_START l).
    + rewrite fold_scan_collecting. simpl. rewrite <- app_assoc.
      reflexivity.
    + apply IH.
Qed.

Lemma fold_scan_flag (ls : list str) :
  forall acc, fst (fold_left scan ls acc) = fst acc || start_seen ls.
Proof.
  induction ls as [|l ls IH]; intros acc; simpl.
  - rewrite orb_false_r. reflexivity.
  - rewrite IH. unfold scan. simpl. rewrite orb_assoc. reflexivity.
Qed.

Lemma received_same (w w' : world) : reads w' = reads w -> received w w' = [].
Proof. unfold received. intros ->. rewrite Nat.sub_diag. reflexivity. Qed.

Lemma received_next (w w0 w' : world) :
  reads w <= reads w0 -> reads w' = S (reads w0) ->
  received w w' = received w w0 ++ [strip (device w (reads w0))].
Proof.
  unfold received. intros H ->.
  replace (S (reads w0) - reads w) with (S (reads w0 - reads w)) by lia.
  rewrite seq_S, map_app. simpl.
  replace (reads w + (reads w0 - reads w)) with (reads w0) by lia.
  reflexivity.
Qed.

Lemma mark_start_progress line st w :
  let r := mark_start line st w in
  progress (fst r) = (collecting st || contains SESSION_START line, rows st) /\
  sent_stop (fst r) = sent_stop st /\
  device (snd r) = device w /\ reads (snd r) = reads w.
Proof.
  unfold mark_start, progress.
  destruct (contains SESSION_START line); simpl;
    rewrite ?orb_true_r, ?orb_false_r; auto.
Qed.

Lemma soft_deadline_progress p st w :
  let r := soft_deadline p st w in
  progress (fst r) = progress st /\
  device (snd r) = device w /\ reads (snd r) = reads w.
Proof.
  unfold soft_deadline.
  destruct (duration p) as [d|]; [|simpl; auto].
  destruct (sent_stop st); [simpl; auto|].
  destruct (monitor_start_wall st) as [t0|]; [|simpl; auto].
  unfold time_time. destruct (Qgeb _ d); simpl; auto.
Qed.

Lemma hard_deadline_progress p sw st w :
  match hard_deadline p sw st w with
  | (Some st1, w1) =>
      progress st1 = progress st /\ device w1 = device w /\
      reads w1 = reads w
  | (None, w1) => device w1 = device w /\ reads w1 = reads w
  end.
Proof.
  unfold hard_deadline, time_time.
  destruct (Qgtb (timeout p) 0); [|auto].
  destruct (Qgtb _ (timeout p)); [|simpl; auto].
  destruct (collecting st && negb (sent_stop st)); simpl; auto.
Qed.

(** A line dealt with by [on_line]: the flag and the rows move as [scan]
    says; while collecting, a line on which [parse_row] raises leaves the
    loop with [ValueError] and a line that ends the session leaves it by
    the [break]. *)
Lemma on_line_progress p line st w :
  exists st' w',
    on_line p line st w = (pass_end (scan (progress st) line) line st', w') /\
    progress st' = scan (progress st) line /\
    device w' = device w /\ reads w' = reads w.
Proof.
  destruct (mark_start_progress line st w) as (Hp & _ & Hd & Hr).
  cbv zeta in Hp, Hd, Hr. unfold progress in Hp. inversion Hp as [[Hc Hrows]].
  unfold pass_end, scan, progress. cbn [fst snd]. rewrite <- Hc.
  destruct (on_line_cases p line st w)
    as [(Ec & ->)|[(Ec & Hx & Ho & ->)|(Ec & Hx & st2 & Eo & ->)]];
    rewrite Ec; cbn [andb].
  - eexists. eexists. split; [reflexivity|]. rewrite Ec, Hrows. auto.
  - rewrite Hx. eexists. eexists. split; [reflexivity|].
    rewrite Ec, Hrows, Ho, app_nil_r. auto.
  - rewrite Hx.
    destruct (collect_cases line (fst (mark_start line st w)))
      as [(_ & _ & E)|(_ & st2' & E & Cr & Cc & _)];
      rewrite E in Eo; [discriminate Eo|]. inversion Eo; subst st2'.
    destruct (soft_deadline_progress p st2 (snd (mark_start line st w)))
      as (Sp & Sd & Sr).
    cbv zeta in Sp, Sd, Sr. unfold progress in Sp.
    inversion Sp as [[Sc Srows]].
    eexists. eexists.
    split; [destruct (ends_session line); reflexivity|].
    rewrite Sc, Srows, Cc, Cr, Ec, Hrows. split; [reflexivity|].
    split; congruence.
Qed.

(** The read and what follows it: one line is read and dealt with. *)
Lemma read_line_progress p st w :
  exists st' w',
    let line := strip (device w (reads w)) in
    read_line p st w = (pass_end (scan (progress st) line) line st', w') /\
    progress st' = scan (progress st) line /\
    device w' = device w /\ reads w' = S (reads w).
Proof.
  unfold read_line, readline.
  destruct (is_empty (device w (reads w))) eqn:E1.
  { apply is_empty_true in E1. rewrite E1. exists st. eexists.
    cbn [strip lstrip rstrip rev app].
    rewrite pass_end_nothing, scan_nothing. simpl. auto. }
  destruct (is_empty (strip (device w (reads w)))) eqn:E2.
  { apply is_empty_true in E2. rewrite E2. exists st. eexists.
    rewrite pass_end_nothing, scan_nothing. simpl. auto. }
  match goal with
  | |- context [on_line p ?l st ?w2] =>
      destruct (on_line_progress p l st w2) as (st' & w' & -> & Hs & Hd' & Hr')
  end.
  exists st', w'. simpl in Hd', Hr'. auto.
Qed.

(** One pass: either no line is read and the loop is left at the hard
    deadline, or one line is read and dealt with. *)
Lemma capture_body_progress p sw st w :
  (exists w',
      capture_body p sw st w = (Break st, w') /\
      device w' = device w /\ reads w' = reads w) \/
  (exists st' w',
      let line := strip (device w (reads w)) in
      capture_body p sw st w
      = (pass_end (scan (progress st) line) line st', w') /\
      progress st' = scan (progress st) line /\
      device w' = device w /\ reads w' = S (reads w)).
Proof.
  unfold capture_body.
  pose proof (hard_deadline_progress p sw st w) as H.
  destruct (hard_deadline p sw st w) as [[st1|] w1].
  - right. destruct H as (Hp & Hd & Hr).
    destruct (read_line_progress p st1 w1) as (st' & w' & E & Hs & Hd' & Hr').
    exists st', w'. rewrite Hd, Hr, Hp in *. cbv zeta in *. auto.
  - left. exists w1. destruct H. auto.
Qed.

Lemma capture_loop_progress fuel p sw st w :
  exists f st' w',
    capture_loop fuel p sw st w = (f, w') /\ state_of f = Some st' /\
    device w' = device w /\ reads w <= reads w' /\
    progress st' = fold_left scan (received w w') (progress st).
Proof.
  unfold capture_loop. revert st w.
  induction fuel as [|n IH]; intros st w.
  - exists (Continue st), st, w. rewrite received_same by reflexivity.
    simpl. auto.
  - rewrite loop_step.
    destruct (capture_body_progress p sw st w)
      as [(w1 & -> & Hd & Hr)|(st1 & w1 & -> & Hp & Hd & Hr)].
    + exists (Break st), st, w1. rewrite received_same by exact Hr.
      simpl. split; [auto|]. split; [auto|]. split; [auto|].
      split; [lia|reflexivity].
    + assert (R1 : received w w1 = [strip (device w (reads w))]).
      { rewrite (@received_next w w w1) by (auto; lia).
        rewrite received_same by reflexivity. reflexivity. }
      assert (Stop : forall f, state_of f = Some st1 ->
                exists f0 st' w',
                  (f, w1) = (f0, w') /\ state_of f0 = Some st' /\
                  device w' = device w /\ reads w <= reads w' /\
                  progress st'
                  = fold_left scan (received w w') (progress st)).
      { intros f Hf. exists f, st1, w1. rewrite R1. simpl.
        split; [auto|]. split; [auto|]. split; [auto|].
        split; [lia|exact Hp]. }
      unfold pass_end.
      destruct (fst (scan (progress st) (strip (device w (reads w)))) &&
                raises (strip (device w (reads w)))); [apply Stop; reflexivity|].
      destruct (fst (scan (progress st) (strip (device w (reads w)))) &&
                ends_session (strip (device w (reads w))));
        [apply Stop; reflexivity|].
      destruct (IH st1 w1) as (f & st' & w' & Hl & Hs & Hd' & Hr' & Hp').
      exists f, st', w'. split; [exact Hl|]. split; [exact Hs|].
      split; [congruence|]. split; [lia|]. rewrite Hp', Hp.
      assert (E : received w w' = received w w1 ++ received w1 w').
      { unfold received. rewrite Hd, Hr.
        replace (reads w' - reads w) with (1 + (reads w' - S (reads w)))
          by lia.
        replace (S (reads w) - reads w) with 1 by lia.
        rewrite seq_app, map_app, Nat.add_1_r. reflexivity. }
      rewrite E, R1. reflexivity.
Qed.

Lemma capture_loop_rows (fuel : nat) (p : params) (start_wall : Q)
      (w : world) :
  exists st',
    state_of (fst (capture_loop fuel p start_wall initial w)) = Some st' /\
    rows st'
    = parsed_rows
        (from_marker
           (received w (snd (capture_loop fuel p start_wall initial w)))).
Proof.
  destruct (capture_loop_progress fuel p start_wall initial w)
    as (f & st' & w' & -> & Hs & _ & _ & Hp).
  exists st'. split; [exact Hs|]. cbn [snd].
  pose proof (fold_scan_waiting (received w w') []) as F.
  change (false, @nil DataRow) with (progress initial) in F.
  rewrite <- Hp in F. exact F.
Qed.

Lemma from_marker_none (ls : list str) :
  forallb (fun l => negb (contains SESSION_START l)) ls = true ->
  from_marker ls = [].
Proof.
  induction ls as [|l ls IH]; simpl; [reflexivity|].
  destruct (contains SESSION_START l); simpl; [discriminate|exact IH].
Qed.

(** C4, as the code has it: the rows of the session, in the loop, when
    it is left or when an exception leaves it, are the rows of the lines
    that parse among the lines received from the first line bearing the
    session-start marker on, that line included, in their order.  No line
    before the marker line gives a row, whatever it looks like; the marker
    line itself is tested like the lines after it. *)
Theorem rows_from_start_marker (fuel : nat) (p : params) (start_wall : Q)
        (w : world) :
  exists st',
    state_of (fst (capture_loop fuel p start_wall initial w)) = Some st' /\
    let seen := received w (snd (capture_loop fuel p start_wall initial w)) in
    rows st' = parsed_rows (from_marker seen) /\
    (forallb (fun l => negb (contains SESSION_START l)) seen = true ->
     rows st' = []).
Proof.
  destruct (capture_loop_rows fuel p start_wall w) as (st' & Hs & Hr).
  exists st'. split; [exact Hs|]. split; [exact Hr|].
  intros H. rewrite Hr, (from_marker_none _ H). reflexivity.
Qed.

(** ** The end of the session *)

(** C5, as the code has it: a line that is received while collecting (or
    that bears the start marker itself) and contains the session-end
    marker or the completion phrase ends the loop on that pass, whatever
    the clock says and whatever the duration and the timeout are.  Before
    that the line is tested against the row pattern like any other: it is
    appended when it gives a row, and when [parse_row] raises on it the
    loop is left by that exception instead of the [break]. *)
Theorem end_marker_ends_session (p : params) (start_wall : Q) (st : cstate)
        (w : world) :
  let line := strip (device w (reads w)) in
  fst (hard_deadline p start_wall st w) <> None ->
  collecting st = true \/ contains SESSION_START line = true ->
  ends_session line = true ->
  exists st' w',
    capture_body p start_wall st w
    = (if raises line then Raise ValueError st' else Break st', w') /\
    rows st' = rows st ++ row_of line /\
    reads w' = S (reads w).
Proof.
  intros line Hh Hc He. unfold capture_body.
  pose proof (hard_deadline_progress p start_wall st w) as H.
  destruct (hard_deadline p start_wall st w) as [[st1|] w0];
    [|exfalso; apply Hh; reflexivity].
  destruct H as (Hp & Hd & Hr).
  destruct (read_line_progress p st1 w0) as (st' & w' & E & Hs & _ & Hr').
  cbv zeta in E, Hs. rewrite Hd, Hr, Hp in E, Hs. fold line in E, Hs.
  exists st', w'.
  assert (F : fst (scan (progress st) line) = true).
  { unfold scan, progress. simpl. destruct Hc as [-> | ->];
      rewrite ?orb_true_r; reflexivity. }
  unfold pass_end in E. rewrite F, He in E. cbn [andb] in E.
  split; [exact E|]. split; [|congruence].
  unfold progress in Hs, F. unfold scan in Hs, F. cbn [fst snd] in Hs, F.
  rewrite F in Hs. inversion Hs. reflexivity.
Qed.

(** ** The result of the session *)

Lemma frame_from_data (rs : list DataRow) :
  forall n prev, map data (frame_from n prev rs) = rs.
Proof.
  induction rs as [|r rs IH]; intros n prev; simpl; [reflexivity|].
  rewrite IH. reflexivity.
Qed.


(** ** The handshake *)

Lemma tare_line_nothing (saw : bool) : tare_line [] saw = Continue saw.
Proof. destruct saw; reflexivity. Qed.

Lemma tare_body_eq ts tt saw w :
  tare_body ts tt saw w
  = if in_time ts tt w 0
    then (tare_line (line_at w 0) saw, snd (readline (snd (time_time w))))
    else (Raise TareTimeout saw, snd (time_time w)).
Proof.
  unfold tare_body, in_time, line_at, time_time, readline.
  rewrite !Nat.add_0_r. cbn [fst snd device reads clock ticks].
  destruct (Qgtb _ tt); simpl; [reflexivity|].
  destruct (is_empty (device w (reads w))) eqn:E1.
  { apply is_empty_true in E1. rewrite E1.
    cbn [strip lstrip rstrip rev app]. rewrite tare_line_nothing.
    reflexivity. }
  destruct (is_empty (strip (device w (reads w)))) eqn:E2.
  { apply is_empty_true in E2. rewrite E2, tare_line_nothing. reflexivity. }
  reflexivity.
Qed.

Lemma line_at_next (w : world) (k : nat) :
  line_at (snd (readline (snd (time_time w)))) k = line_at w (S k).
Proof. unfold line_at. simpl. rewrite Nat.add_succ_r. reflexivity. Qed.

Lemma in_time_next ts tt (w : world) (k : nat) :
  in_time ts tt (snd (readline (snd (time_time w)))) k
  = in_time ts tt w (S k).
Proof. unfold in_time. simpl. rewrite Nat.add_succ_r. reflexivity. Qed.

Lemma ends_unresolved_next n ts tt saw w :
  in_time ts tt w 0 = true ->
  undecided (line_at w 0) = true ->
  (saw || contains TARE_BANNER (line_at w 0))
  && contains BANNER_CLOSE (line_at w 0) = false ->
  (ends_unresolved (S n) ts tt saw w <->
   ends_unresolved n ts tt (saw || contains TARE_BANNER (line_at w 0))
                   (snd (readline (snd (time_time w))))).
Proof.
  intros Ht Hu Hn. set (w2 := snd (readline (snd (time_time w)))).
  unfold ends_unresolved. split.
  - intros (j & Hj & Hb & Hc & Ha). destruct j as [|j'].
    + exfalso. rewrite Hc, andb_true_r in Hn.
      destruct Hb as [-> | (i & Hi & Hb)]; [discriminate Hn|].
      replace i with 0 in Hb by lia. rewrite Hb, orb_true_r in Hn.
      discriminate Hn.
    + exists j'. split; [lia|]. split; [|split].
      * destruct Hb as [-> | (i & Hi & Hb)]; [left; reflexivity|].
        destruct i as [|i'].
        -- left. rewrite Hb. apply orb_true_r.
        -- right. exists i'. split; [lia|].
           unfold w2. rewrite line_at_next. exact Hb.
      * unfold w2. rewrite line_at_next. exact Hc.
      * intros k Hk. unfold w2. rewrite in_time_next, line_at_next.
        apply Ha. lia.
  - intros (j' & Hj & Hb & Hc & Ha). exists (S j'). split; [lia|].
    unfold w2 in *. rewrite line_at_next in Hc. split; [|split].
    + destruct Hb as [Hb | (i' & Hi & Hb)].
      * apply orb_true_iff in Hb. destruct Hb as [Hb|Hb]; [left; exact Hb|].
        right. exists 0. split; [lia|exact Hb].
      * right. exists (S i'). split; [lia|].
        rewrite line_at_next in Hb. exact Hb.
    + exact Hc.
    + intros k Hk. destruct k as [|k']; [auto|].
      specialize (Ha k'). rewrite in_time_next, line_at_next in Ha.
      apply Ha. lia.
Qed.

Lemma tare_loop_unresolved (n : nat) ts tt :
  forall saw w,
    settle (fst (tare_loop n ts tt saw w)) = Raised TareEndedWithoutResult <->
    ends_unresolved n ts tt saw w.
Proof.
  unfold tare_loop.
  induction n as [|n IH]; intros saw w.
  - simpl. split; [discriminate|]. intros (j & Hj & _). lia.
  - rewrite loop_step, tare_body_eq.
    destruct (in_time ts tt w 0) eqn:Ht.
    2:{ simpl. split; [discriminate|].
        intros (j & _ & _ & _ & Ha).
        destruct (Ha 0 ltac:(lia)) as [Ha0 _]. congruence. }
    unfold tare_line.
    replace (if contains TARE_BANNER (line_at w 0) then true else saw)
      with (saw || contains TARE_BANNER (line_at w 0))
      by (destruct saw, (contains TARE_BANNER (line_at w 0)); reflexivity).
    destruct (contains TARE_OK (line_at w 0)) eqn:Eok.
    { simpl. split; [discriminate|].
      intros (j & _ & _ & _ & Ha).
      destruct (Ha 0 ltac:(lia)) as [_ Hu]. unfold undecided in Hu.
      rewrite Eok in Hu. discriminate Hu. }
    destruct (contains TARE_FAILED (line_at w 0)) eqn:Efail.
    { simpl. split; [discriminate|].
      intros (j & _ & _ & _ & Ha).
      destruct (Ha 0 ltac:(lia)) as [_ Hu]. unfold undecided in Hu.
      rewrite Efail, andb_false_r in Hu. discriminate Hu. }
    assert (Hu : undecided (line_at w 0) = true)
      by (unfold undecided; rewrite Eok, Efail; reflexivity).
    destruct ((saw || contains TARE_BANNER (line_at w 0))
              && contains BANNER_CLOSE (line_at w 0)) eqn:Eend.
    + simpl. split; [intros _|reflexivity].
      apply andb_true_iff in Eend. destruct Eend as [Eb Ec].
      exists 0. split; [lia|]. split; [|split].
      * apply orb_true_iff in Eb. destruct Eb as [Eb|Eb]; [left; exact Eb|].
        right. exists 0. auto.
      * exact Ec.
      * intros k Hk. replace k with 0 by lia. auto.
    + rewrite (@ends_unresolved_next n ts tt saw w Ht Hu Eend). apply IH.
Qed.

Lemma run_tare_flow (fuel : nat) (tt : Q) (w : world) :
  fst (run_tare_before_monitor fuel tt w)
  = settle (fst (tare_loop fuel (clock w (ticks w)) tt false (tare_entry w))).
Proof.
  unfold run_tare_before_monitor, tare_entry. cbn [time_time snd].
  destruct (tare_loop fuel _ tt false _) as [f w3]. reflexivity.
Qed.

(** C7, as the code has it.  The handshake fails with
    [TareEndedWithoutResult] exactly when a line containing the closing
    marker is read, a line containing the tare banner has been read
    before it or is that same line, and no line up to and including the
    closing one contains the success or the failure marker (all of them
    read before the timeout).  A line read while no banner has been seen,
    and that bears none itself, never fails for want of a result, closing
    marker or not; when it bears no success or failure marker either it
    is passed over.  A line that contains the success marker makes the
    handshake succeed, whatever else it contains. *)
Theorem tare_ended_without_result (fuel : nat) (tare_timeout_s : Q)
        (w : world) :
  (fst (run_tare_before_monitor fuel tare_timeout_s w)
   = Raised TareEndedWithoutResult <->
   exists i j,
     i <= j /\ j < fuel /\
     contains TARE_BANNER (line_at w i) = true /\
     contains BANNER_CLOSE (line_at w j) = true /\
     forall k, k <= j ->
       in_time (clock w (ticks w)) tare_timeout_s (tare_entry w) k = true /\
       undecided (line_at w k) = true) /\
  (forall line,
      contains TARE_BANNER line = false ->
      (forall saw, tare_line line false <> Raise TareEndedWithoutResult saw) /\
      (undecided line = true -> tare_line line false = Continue false)) /\
  (forall line saw,
      contains TARE_OK line = true -> tare_line line saw = Break tt).
Proof.
  split; [|split].
  - rewrite run_tare_flow, tare_loop_unresolved.
    unfold ends_unresolved.
    change (line_at (tare_entry w)) with (line_at w). split.
    + intros (j & Hj & [Hb|(i & Hi & Hb)] & Hc & Ha); [discriminate Hb|].
      exists i, j. auto.
    + intros (i & j & Hi & Hj & Hb & Hc & Ha). exists j.
      split; [exact Hj|]. split; [right; exists i; auto|]. auto.
  - intros line Hb. unfold tare_line, undecided. rewrite Hb. split.
    + intros saw. destruct (contains TARE_OK line); [discriminate|].
      destruct (contains TARE_FAILED line); discriminate.
    + intros Hu. apply andb_true_iff in Hu. destruct Hu as [H1 H2].
      apply negb_true_iff in H1. apply negb_true_iff in H2.
      rewrite H1, H2. reflexivity.
  - intros line saw H. unfold tare_line. rewrite H. reflexivity.
Qed.

(** ** A timeout that is not positive *)

Lemma hard_deadline_off p sw st w :
  Qgtb (timeout p) 0 = false -> hard_deadline p sw st w = (Some st, w).
Proof. unfold hard_deadline. intros ->. reflexivity. Qed.

Lemma capture_body_off p sw st w :
  Qgtb (timeout p) 0 = false -> capture_body p sw st w = read_line p st w.
Proof. unfold capture_body. intros H. rewrite hard_deadline_off; auto. Qed.

(** Without the hard deadline, without a line that ends the session and
    without a line on which [parse_row] raises, the loop is never left. *)
Lemma capture_loop_stays (fuel : nat) p sw :
  Qgtb (timeout p) 0 = false ->
  forall st w,
    (forall k, ends_session (strip (device w k)) = false /\
               raises (strip (device w k)) = false) ->
    left_loop (fst (capture_loop fuel p sw st w)) = false.
Proof.
  intros Hoff. unfold capture_loop.
  induction fuel as [|n IH]; intros st w Hdev; [reflexivity|].
  rewrite loop_step, capture_body_off by exact Hoff.
  destruct (read_line_progress p st w) as (st' & w' & E & _ & Hd & _).
  cbv zeta in E. unfold pass_end in E.
  destruct (Hdev (reads w)) as [He Hx].
  rewrite He, Hx, !andb_false_r in E. rewrite E.
  apply IH. intros k. rewrite Hd. apply Hdev.
Qed.

(** C10, as the code has it: with a timeout that is not positive the
    deadline branch at the top of the loop is never taken: the clock is
    not read there, no stop is written and the loop is not left.  A pass
    leaves the loop only on a line that contains the session-end marker
    or the completion phrase, or on a line on which [parse_row] raises;
    when the device never sends a line of either kind the loop is never
    left. *)
Theorem nonpositive_timeout_never_fires (p : params) (start_wall : Q)
        (st : cstate) (w : world) :
  (timeout p <= 0)%Q ->
  hard_deadline p start_wall st w = (Some st, w) /\
  (left_loop (fst (capture_body p start_wall st w)) = true ->
   ends_session (strip (device w (reads w))) = true \/
   raises (strip (device w (reads w))) = true) /\
  ((forall k, ends_session (strip (device w k)) = false /\
              raises (strip (device w k)) = false) ->
   forall fuel,
     left_loop (fst (capture_loop fuel p start_wall st w)) = false).
Proof.
  intros H. apply Qgtb_false in H. split; [|split].
  - apply hard_deadline_off. exact H.
  - rewrite capture_body_off by exact H.
    destruct (read_line_progress p st w) as (st' & w' & E & _).
    cbv zeta in E. rewrite E. unfold pass_end.
    destruct (raises (strip (device w (reads w)))); [auto|].
    destruct (ends_session (strip (device w (reads w)))); [auto|].
    rewrite !andb_false_r. simpl. discriminate.
  - intros Hdev fuel. apply capture_loop_stays; assumption.
Qed.

(** ** A silent device *)

Lemma first_true (k : nat) :
  forall f : nat -> bool,
    f k = true ->
    exists k0, k0 <= k /\ f k0 = true /\ forall i, i < k0 -> f i = false.
Proof.
  induction k as [|k IH]; intros f H.
  - exists 0. split; [lia|]. split; [exact H|]. intros i Hi. lia.
  - destruct (f 0) eqn:E0.
    + exists 0. split; [lia|]. split; [exact E0|]. intros i Hi. lia.
    + destruct (IH (fun i => f (S i)) H) as (k0 & Hk & Hf & Hlt).
      exists (S k0). split; [lia|]. split; [exact Hf|].
      intros i Hi. destruct i as [|i]; [exact E0|]. apply Hlt. lia.
Qed.

(** A pass that reads nothing while no session is under way. *)
Lemma capture_body_silent p sw st w :
  Qgtb (timeout p) 0 = true -> collecting st = false ->
  device w (reads w) = [] ->
  capture_body p sw st w
  = if Qgtb (clock w (ticks w) - sw) (timeout p)
    then (Break st, snd (time_time w))
    else (Continue st, snd (readline (snd (time_time w)))).
Proof.
  intros Hon Hc Hd. unfold capture_body, hard_deadline.
  rewrite Hon. cbn [time_time]. rewrite Hc. cbn [andb].
  destruct (Qgtb _ (timeout p)); [reflexivity|].
  unfold read_line, readline. cbn [device reads fst snd]. rewrite Hd.
  reflexivity.
Qed.

(** With a positive timeout, no session under way and a device that stays
    silent, the loop turns until the clock passes the deadline and is
    left on that pass. *)
Lemma silent_loop (m : nat) p sw st :
  Qgtb (timeout p) 0 = true -> collecting st = false ->
  forall w,
    (forall k, device w (reads w + k) = []) ->
    (forall i, i < m -> Qgtb (clock w (ticks w + i) - sw) (timeout p) = false) ->
    Qgtb (clock w (ticks w + m) - sw) (timeout p) = true ->
    exists w',
      capture_loop (S m) p sw st w = (Break st, w') /\
      clock w' = clock w /\ ticks w' = S (ticks w + m) /\ tx w' = tx w.
Proof.
  intros Hon Hc. unfold capture_loop.
  induction m as [|m IH]; intros w Hdev Hlt Hm; rewrite loop_step;
    (rewrite capture_body_silent;
     [|exact Hon|exact Hc|rewrite <- (Hdev 0), Nat.add_0_r; reflexivity]).
  - rewrite Nat.add_0_r in Hm. rewrite Hm. eexists. split; [reflexivity|].
    cbn [time_time snd clock ticks tx]. rewrite Nat.add_0_r. auto.
  - pose proof (Hlt 0 ltac:(lia)) as H0. rewrite Nat.add_0_r in H0.
    rewrite H0.
    destruct (IH (snd (readline (snd (time_time w))))) as (w' & E & Hk & Ht & Hx).
    + intros k. cbn. rewrite <- Nat.add_succ_r. apply Hdev.
    + intros i Hi. cbn. rewrite <- Nat.add_succ_r. apply Hlt. lia.
    + cbn. rewrite <- Nat.add_succ_r. exact Hm.
    + exists w'. split; [exact E|]. cbn in Hk, Ht, Hx.
      split; [exact Hk|]. split; [lia|exact Hx].
Qed.

(** C8, as the code has it: for a positive hard timeout [T], a device
    that sends nothing after the start command, a clock whose successive
    readings lie at most one poll interval apart and that passes the
    deadline at some point, the capture loop is left, with no rows and
    nothing but the start command written, on a pass whose clock reading
    is at most [T] plus one poll interval after the start. *)
Theorem silent_device_terminates (p : params) (w : world) (poll : Q) :
  (0 < timeout p)%Q ->
  (forall k, device w (reads w + k) = []) ->
  (forall k, clock w (ticks w + S k) <= clock w (ticks w + k) + poll)%Q ->
  (exists k, timeout p < clock w (ticks w + k) - clock w (ticks w))%Q ->
  exists fuel st w',
    monitor_phase fuel p w = (Break st, w') /\
    rows st = [] /\ tx w' = tx w ++ [CMD_MONITOR] /\
    (now w' - clock w (ticks w) <= timeout p + poll)%Q.
Proof.
  intros HT Hdev Hpoll [k Hk].
  set (c := fun i => clock w (ticks w + i)) in *.
  set (late := fun i => Qgtb (c i - c 0) (timeout p)).
  assert (Hk' : late k = true).
  { unfold late, c. rewrite Nat.add_0_r. apply Qgtb_true. exact Hk. }
  destruct (first_true k late Hk') as (k0 & _ & Hk0 & Hlt).
  destruct k0 as [|m].
  { exfalso. unfold late in Hk0. apply Qgtb_true in Hk0. lra. }
  unfold monitor_phase. cbn [time_time].
  match goal with
  | |- context [capture_loop _ p ?sw initial ?w2] =>
      destruct (@silent_loop m p sw initial (proj2 (Qgtb_true _ _) HT)
                             eq_refl w2) as (w' & E & Hc & Ht & Hx)
  end.
  - intros i. apply Hdev.
  - intros i Hi. cbn [clock ticks write]. specialize (Hlt (S i) ltac:(lia)).
    unfold late, c in Hlt. rewrite Nat.add_0_r in Hlt.
    replace (S (ticks w) + i) with (ticks w + S i) by lia. exact Hlt.
  - cbn [clock ticks write]. unfold late, c in Hk0.
    rewrite Nat.add_0_r in Hk0.
    replace (S (ticks w) + m) with (ticks w + S m) by lia. exact Hk0.
  - cbn [clock ticks tx write] in Hc, Ht, Hx.
    exists (S m), initial, w'. split; [exact E|]. split; [reflexivity|].
    split; [exact Hx|].
    unfold now. rewrite Hc, Ht. cbn [pred].
    replace (S (ticks w) + m) with (ticks w + S m) by lia.
    pose proof (Hpoll m) as Hp. fold (c (S m)) in Hp |- *. fold (c m) in Hp.
    assert (Hprev : (c m - c 0%nat <= timeout p)%Q).
    { destruct m as [|m'].
      - lra.
      - apply Qgtb_false. apply (Hlt (S m')). lia. }
    unfold c at 2 in Hprev. rewrite Nat.add_0_r in Hprev. lra.
Qed.


(** ** Signs *)

Lemma digit_val_nonneg (c : char) : (0 <= digit_val c)%Z.
Proof. unfold digit_val. destruct (decimal c); lia. Qed.

Lemma nat_val_from (s : str) :
  forall acc,
    (0 <= acc)%Z ->
    (0 <= fold_left (fun a c => (10 * a + digit_val c)%Z) s acc)%Z.
Proof.
  induction s as [|c s IH]; intros acc Ha; cbn [fold_left]; [exact Ha|].
  apply IH. pose proof (digit_val_nonneg c). lia.
Qed.

Lemma nat_val_nonneg (s : str) : (0 <= nat_val s)%Z.
Proof. apply nat_val_from. lia. Qed.

Lemma py_int_unsigned_nonneg (g : str) (z : Z) :
  unsigned_integer is_digit09 g = true -> py_int g = Some z -> (0 <= z)%Z.
Proof.
  intros Hg. rewrite (@py_int_fits g) by (apply integer09_signed; exact Hg).
  rewrite (minus_sign_none _ (digits_unsigned _ digit09_decimal Hg)).
  cbn [fst snd]. destruct (int_fits g); [|discriminate].
  intros E. inversion E. apply nat_val_nonneg.
Qed.

Lemma py_float_unsigned_nonneg (g : str) (q : Q) :
  unsigned_decimal is_digit09 g = true -> py_float g = Some q -> (0 <= q)%Q.
Proof.
  intros Hg. unfold py_float.
  rewrite (minus_sign_none _ (decimal_unsigned _ digit09_decimal Hg)).
  unfold udec_val.
  destruct (split_on (chr ".") g) as [|i [|f [|y l]]]; try discriminate.
  - destruct (all_digits i); [|discriminate]. simpl.
    intros E. inversion E; subst.
    unfold Qle. simpl. rewrite Z.mul_1_r. apply nat_val_nonneg.
  - destruct (all_digits i && all_digits f); [|discriminate]. simpl.
    intros E. inversion E; subst.
    unfold Qle. simpl. rewrite Z.mul_1_r. apply nat_val_nonneg.
Qed.

(** X2: whatever the line, a row that [parse_row] returns has a
    non-negative elapsed time and a non-negative sample time: the first
    two groups of the pattern take no sign. *)
Theorem parsed_times_nonnegative (line : str) (row : DataRow) :
  parse_row line = Ok (Some row) ->
  (0 <= elapsed_s row)%Q /\ (0 <= sample_ms row)%Z.
Proof.
  intros H. unfold parse_row in H.
  destruct (re_match ROW_PATTERN line) as [m|] eqn:E; [|discriminate H].
  destruct (re_match_row _ E) as (pre & post & g & texts & _ & _ & Hc & ->).
  destruct (@conforms_seven ROW_FIELDS (g :: texts) eq_refl Hc)
    as (g1 & g2 & g3 & g4 & g5 & g6 & g7 & Et).
  rewrite Et in *. clear Et.
  cbn [conforms ROW_FIELDS] in Hc.
  apply andb_true_iff in Hc. destruct Hc as [H1 Hc].
  apply andb_true_iff in Hc. destruct Hc as [H2 _].
  unfold row_of_groups, group_float, group_int in H.
  cbn [captured ROW_HEAD ROW_GROUPS fst group Nat.eqb bind] in H.
  destruct (py_float g1) as [q1|] eqn:F1; [|discriminate H].
  cbn [bind] in H.
  destruct (py_int g2) as [z2|] eqn:F2; [|discriminate H].
  cbn [bind] in H.
  destruct (py_int g3); [|discriminate H]. cbn [bind] in H.
  destruct (py_int g4); [|discriminate H]. cbn [bind] in H.
  destruct (py_int g5); [|discriminate H]. cbn [bind] in H.
  destruct (py_int g6); [|discriminate H]. cbn [bind] in H.
  destruct (py_float g7); [|discriminate H]. cbn [bind] in H.
  inversion H; subst. simpl. split.
  - eapply py_float_unsigned_nonneg; eassumption.
  - eapply py_int_unsigned_nonneg; eassumption.
Qed.

(** ** Labels *)

Lemma space_cases (c : char) :
  is_space c = true -> In c WHITESPACE.
Proof.
  unfold is_space. intros H. apply existsb_exists in H.
  destruct H as (x & Hx & E). apply N.eqb_eq in E. subst x. exact Hx.
Qed.

Lemma label_char_solid (c : char) :
  label_char c = true ->
  negb (is_space c) && negb (N.eqb c (chr ",")) = true.
Proof.
  intros H. destruct (is_space c) eqn:Es.
  - exfalso. apply space_cases in Es. unfold WHITESPACE in Es.
    repeat (destruct Es as [<-|Es]; [discriminate H|]). exact Es.
  - destruct (N.eqb c (chr ",")) eqn:Ec; [|reflexivity].
    apply N.eqb_eq in Ec. subst c. discriminate H.
Qed.

Lemma sub_runs_all (q c : char -> bool) (rep : str) (s : str) :
  forallb q rep = true ->
  (forall a, In a s -> c a = false -> q a = true) ->
  forall b, forallb q (sub_runs c rep b s) = true.
Proof.
  intros Hrep. induction s as [|a s IH]; intros Hs b; simpl; [reflexivity|].
  assert (Hs' : forall x, In x s -> c x = false -> q x = true)
    by (intros x Hx; apply Hs; right; exact Hx).
  destruct (c a) eqn:E.
  - rewrite forallb_app, (IH Hs' true). destruct b; simpl; [reflexivity|].
    rewrite Hrep. reflexivity.
  - simpl. rewrite (Hs a (or_introl eq_refl) E). apply IH. exact Hs'.
Qed.

Lemma sub_runs_length (c : char -> bool) (x : char) (s : str) :
  forall b, List.length (sub_runs c [x] b s) <= List.length s.
Proof.
  induction s as [|a s IH]; intros b; simpl; [lia|].
  destruct (c a).
  - rewrite length_app. specialize (IH true). destruct b; simpl; lia.
  - simpl. specialize (IH false). lia.
Qed.

Lemma sub_runs_none (c : char -> bool) (rep : str) (s : str) :
  forallb (fun a => negb (c a)) s = true ->
  forall b, sub_runs c rep b s = s.
Proof.
  induction s as [|a s IH]; intros H b; simpl in *; [reflexivity|].
  apply andb_true_iff in H. destruct H as [Ha Hs].
  apply negb_true_iff in Ha. rewrite Ha, (IH Hs). reflexivity.
Qed.

Lemma no_double_dash_cons (a b : char) (t : str) :
  no_double_dash (a :: b :: t)
  = negb (is_dash a && is_dash b) && no_double_dash (b :: t).
Proof. reflexivity. Qed.

Lemma sub_dashes_shape (s : str) :
  forall b,
    no_double_dash (sub_runs is_dash [chr "-"] b s) = true /\
    (b = true -> starts_dash (sub_runs is_dash [chr "-"] b s) = false).
Proof.
  induction s as [|a s IH]; intros b; cbn [sub_runs]; [split; reflexivity|].
  destruct (is_dash a) eqn:E.
  - destruct (IH true) as [Hn Hh]. specialize (Hh eq_refl).
    destruct b; cbn [app].
    + split; [exact Hn|intros _; exact Hh].
    + split; [|discriminate].
      destruct (sub_runs is_dash [chr "-"] true s) as [|y t];
        [reflexivity|].
      rewrite no_double_dash_cons. simpl in Hh. rewrite Hh, andb_false_r.
      exact Hn.
  - destruct (IH false) as [Hn _]. split.
    + destruct (sub_runs is_dash [chr "-"] false s) as [|y t];
        [reflexivity|].
      rewrite no_double_dash_cons, E. exact Hn.
    + intros _. exact E.
Qed.

Lemma sub_dashes_none (s : str) :
  forall b,
    no_double_dash s = true -> (b = true -> starts_dash s = false) ->
    sub_runs is_dash [chr "-"] b s = s.
Proof.
  induction s as [|a s IH]; intros b Hn Hb; cbn [sub_runs]; [reflexivity|].
  destruct (is_dash a) eqn:E.
  - destruct b; [specialize (Hb eq_refl); simpl in Hb; congruence|].
    cbn [app]. pose proof E as E'. unfold is_dash in E'.
    apply N.eqb_eq in E'. subst a.
    f_equal. apply IH; [|intros _].
    + destruct s as [|y t]; [reflexivity|].
      rewrite no_double_dash_cons in Hn.
      apply andb_true_iff in Hn. tauto.
    + destruct s as [|y t]; [reflexivity|].
      rewrite no_double_dash_cons in Hn.
      apply andb_true_iff in Hn. destruct Hn as [Hn _].
      rewrite E in Hn. simpl in Hn. apply negb_true_iff in Hn. exact Hn.
  - f_equal. apply IH; [|discriminate].
    destruct s as [|y t]; [reflexivity|]. rewrite no_double_dash_cons in Hn.
    apply andb_true_iff in Hn. tauto.
Qed.

Lemma lstrip_by_split (p : char -> bool) (s : str) :
  exists a, s = a ++ lstrip_by p s /\ forallb p a = true.
Proof.
  induction s as [|c s (a & Ha & Hb)]; simpl.
  - exists []. split; reflexivity.
  - destruct (p c) eqn:E.
    + exists (c :: a). simpl. rewrite E. split; [congruence|exact Hb].
    + exists []. split; reflexivity.
Qed.

Lemma rstrip_by_split (p : char -> bool) (s : str) :
  exists b, s = rstrip_by p s ++ b /\ forallb p b = true.
Proof.
  unfold rstrip_by. destruct (lstrip_by_split p (rev s)) as (a & Ha & Hb).
  exists (rev a). split.
  - rewrite <- rev_app_distr, <- Ha, rev_involutive. reflexivity.
  - rewrite forallb_forall in *. intros c Hc. apply Hb, in_rev, Hc.
Qed.

Lemma lstrip_by_head (p : char -> bool) (s : str) :
  match lstrip_by p s with a :: _ => p a = false | [] => True end.
Proof.
  induction s as [|c s IH]; simpl; [exact I|].
  destruct (p c) eqn:E; [exact IH|exact E].
Qed.

Lemma lstrip_by_snoc (p : char -> bool) (a : char) (x : str) :
  p a = false -> lstrip_by p (x ++ [a]) = lstrip_by p x ++ [a].
Proof.
  intros Ha. induction x as [|c x IH]; simpl; [rewrite Ha; reflexivity|].
  destruct (p c); [exact IH|reflexivity].
Qed.

Lemma rstrip_by_head (p : char -> bool) (a : char) (t : str) :
  p a = false -> exists t', rstrip_by p (a :: t) = a :: t'.
Proof.
  intros Ha. unfold rstrip_by. simpl rev.
  rewrite (@lstrip_by_snoc p a _ Ha), rev_app_distr. simpl. eauto.
Qed.

Lemma lstrip_by_id (p : char -> bool) (s : str) :
  match s with a :: _ => p a = false | [] => True end -> lstrip_by p s = s.
Proof. destruct s as [|a s]; simpl; [reflexivity|]. intros ->. reflexivity. Qed.

Lemma no_double_dash_app (x y : str) :
  no_double_dash (x ++ y) = true ->
  no_double_dash x = true /\ no_double_dash y = true.
Proof.
  induction x as [|a x IH]; intros H; [split; [reflexivity|exact H]|].
  destruct x as [|b x].
  - split; [reflexivity|]. simpl in H. destruct y as [|c y]; [reflexivity|].
    apply andb_true_iff in H. tauto.
  - change ((a :: b :: x) ++ y) with (a :: b :: (x ++ y)) in H.
    rewrite no_double_dash_cons in H. apply andb_true_iff in H.
    destruct H as [H1 H2]. destruct (IH H2) as [H3 H4].
    split; [|exact H4]. rewrite no_double_dash_cons, H1. exact H3.
Qed.

Lemma firstn_prefix (n : nat) (s : str) : exists t, s = firstn n s ++ t.
Proof. exists (skipn n s). symmetry. apply firstn_skipn. Qed.

Lemma forallb_prefix (q : char -> bool) (x y : str) :
  forallb q (x ++ y) = true -> forallb q x = true /\ forallb q y = true.
Proof. rewrite forallb_app. apply andb_true_iff. Qed.

Lemma strip_length (s : str) : List.length (strip s) <= List.length s.
Proof.
  destruct (strip_split s) as (a & b & E & _).
  rewrite E at 2. rewrite !length_app. lia.
Qed.

Lemma strip_by_length (p : char -> bool) (s : str) :
  List.length (strip_by p s) <= List.length s.
Proof.
  unfold strip_by.
  destruct (lstrip_by_split p s) as (a & Ea & _).
  destruct (rstrip_by_split p (lstrip_by p s)) as (b & Eb & _).
  rewrite Ea at 2. rewrite Eb at 2. rewrite !length_app. lia.
Qed.

Lemma strip_by_shape (p : char -> bool) (s : str) :
  match strip_by p s with a :: _ => p a = false | [] => True end /\
  match rev (strip_by p s) with a :: _ => p a = false | [] => True end.
Proof.
  unfold strip_by. split.
  - pose proof (lstrip_by_head p s) as H.
    destruct (lstrip_by p s) as [|a t]; [exact I|].
    destruct (@rstrip_by_head p a t H) as (t' & ->). exact H.
  - unfold rstrip_by. rewrite rev_involutive. apply lstrip_by_head.
Qed.

(** The text that [sanitize_label] cuts to sixty characters. *)
Lemma cleaned_shape (label : str) :
  let cleaned :=
    strip_by is_dash
      (sub_runs is_dash (lit "-") false
         (sub_runs (fun c => negb (label_char c)) (lit "-") false
                   (strip label))) in
  forallb label_char cleaned = true /\
  no_double_dash cleaned = true /\
  starts_dash cleaned = false /\ ends_dash cleaned = false /\
  List.length cleaned <= List.length label.
Proof.
  intros cleaned. unfold cleaned.
  set (s1 := sub_runs (fun c => negb (label_char c)) (lit "-") false
                      (strip label)).
  set (s2 := sub_runs is_dash (lit "-") false s1).
  assert (H1 : forallb label_char s1 = true).
  { apply sub_runs_all; [reflexivity|].
    intros a _ Ha. apply negb_false_iff in Ha. exact Ha. }
  assert (H2 : forallb label_char s2 = true).
  { apply sub_runs_all; [reflexivity|].
    intros a Ha _. rewrite forallb_forall in H1. apply H1. exact Ha. }
  destruct (sub_dashes_shape s1 false) as [N2 _].
  change [chr "-"] with (lit "-") in N2. fold s2 in N2.
  destruct (lstrip_by_split is_dash s2) as (a & Ea & _).
  destruct (rstrip_by_split is_dash (lstrip_by is_dash s2)) as (b & Eb & _).
  fold (strip_by is_dash s2) in Eb.
  destruct (strip_by_shape is_dash s2) as [Sh St].
  repeat split.
  - rewrite Ea, Eb in H2. apply forallb_prefix in H2. destruct H2 as [_ H2].
    apply forallb_prefix in H2. tauto.
  - rewrite Ea, Eb in N2. apply no_double_dash_app in N2.
    destruct N2 as [_ N2]. apply no_double_dash_app in N2. tauto.
  - unfold starts_dash. destruct (strip_by is_dash s2); [reflexivity|exact Sh].
  - unfold ends_dash, starts_dash.
    destruct (rev (strip_by is_dash s2)); [reflexivity|exact St].
  - pose proof (strip_by_length is_dash s2).
    pose proof (sub_runs_length is_dash (chr "-") s1 false).
    pose proof (sub_runs_length (fun c => negb (label_char c)) (chr "-")
                                (strip label) false).
    pose proof (strip_length label).
    unfold s2, s1 in *. change (lit "-") with [chr "-"] in *. lia.
Qed.

Lemma starts_dash_firstn (n : nat) (s : str) :
  starts_dash s = false -> starts_dash (firstn n s) = false.
Proof. destruct n, s; simpl; auto. Qed.

Lemma sanitize_label_shape (label : str) :
  let r := sanitize_label label in
  r <> [] /\ List.length r <= 60 /\ forallb label_char r = true /\
  no_double_dash r = true /\ starts_dash r = false /\
  (List.length label <= 60 -> ends_dash r = false).
Proof.
  intros r. unfold r, sanitize_label.
  destruct (cleaned_shape label) as (Hc & Hn & Hs & He & Hl).
  cbv zeta in Hc, Hn, Hs, He, Hl.
  set (cleaned := strip_by is_dash _) in *.
  destruct (is_empty cleaned) eqn:E.
  - repeat split; try reflexivity; [discriminate|simpl; lia].
  - destruct (firstn_prefix 60 cleaned) as (t & Et).
    repeat split.
    + destruct cleaned; [discriminate E|]. simpl. discriminate.
    + apply firstn_le_length.
    + rewrite Et in Hc. apply forallb_prefix in Hc. tauto.
    + rewrite Et in Hn. apply no_double_dash_app in Hn. tauto.
    + apply starts_dash_firstn. exact Hs.
    + intros H60. rewrite firstn_all2 by lia. exact He.
Qed.

(** X3: whatever the label, [sanitize_label] returns a text of one to
    sixty characters, all of them letters, digits, underscores or dashes,
    that does not begin with a dash and has no two dashes side by side;
    when the label has at most sixty characters it does not end with a
    dash either. *)
Theorem sanitize_label_safe (label : str) :
  sanitize_label label <> [] /\
  List.length (sanitize_label label) <= 60 /\
  forallb label_char (sanitize_label label) = true /\
  no_double_dash (sanitize_label label) = true /\
  starts_dash (sanitize_label label) = false /\
  (List.length label <= 60 -> ends_dash (sanitize_label label) = false).
Proof. apply sanitize_label_shape. Qed.

Lemma clean_parts (s : str) :
  clean s = true ->
  s <> [] /\ List.length s <= 60 /\ forallb label_char s = true /\
  no_double_dash s = true /\ starts_dash s = false /\ ends_dash s = false.
Proof.
  unfold clean. intros H.
  repeat (apply andb_true_iff in H; destruct H as [H ?]).
  repeat match goal with
         | X : negb _ = true |- _ => apply negb_true_iff in X
         end.
  repeat split; auto.
  - intros ->. discriminate.
  - apply Nat.leb_le. assumption.
Qed.

Lemma strip_label_chars (s : str) :
  s <> [] -> forallb label_char s = true -> strip s = s.
Proof.
  intros Hne Hs.
  assert (S1 : solid (chr ",") s).
  { split; [exact Hne|]. rewrite forallb_forall in *. intros c Hc.
    apply label_char_solid, Hs, Hc. }
  pose proof (@strip_pad (chr ",") [] s [] eq_refl eq_refl S1) as E.
  simpl in E. rewrite app_nil_r in E. exact E.
Qed.

Lemma strip_by_id (p : char -> bool) (s : str) :
  match s with a :: _ => p a = false | [] => True end ->
  match rev s with a :: _ => p a = false | [] => True end ->
  strip_by p s = s.
Proof.
  intros Hh Ht. unfold strip_by, rstrip_by.
  rewrite (@lstrip_by_id p s Hh), (@lstrip_by_id p (rev s) Ht).
  apply rev_involutive.
Qed.

Lemma sanitize_label_fixed (s : str) : clean s = true -> sanitize_label s = s.
Proof.
  intros H. destruct (clean_parts _ H) as (Hne & Hl & Hc & Hn & Hs & He).
  unfold sanitize_label. rewrite (@strip_label_chars s Hne Hc).
  rewrite (@sub_runs_none (fun c => negb (label_char c)) (lit "-") s).
  2:{ rewrite forallb_forall in *. intros a Ha. cbv beta.
      rewrite negb_involutive. apply Hc, Ha. }
  change (lit "-") with [chr "-"].
  rewrite (@sub_dashes_none s false Hn) by discriminate.
  rewrite strip_by_id.
  - destruct s as [|a s]; [contradiction|]. cbn [is_empty].
    apply firstn_all2. exact Hl.
  - unfold starts_dash in Hs. destruct s; [exact I|exact Hs].
  - unfold ends_dash, starts_dash in He. destruct (rev s); [exact I|exact He].
Qed.

(** X4: a label that is clean already (one to sixty letters, digits,
    underscores or dashes, no dash at either end, no two dashes side by
    side) is returned as it is. *)
Theorem sanitize_label_keeps_clean (s : str) :
  clean s = true -> sanitize_label s = s.
Proof. apply sanitize_label_fixed. Qed.

(** X5: on labels of at most sixty characters [sanitize_label] is
    idempotent: sanitizing its result again changes nothing. *)
Theorem sanitize_label_idempotent (label : str) :
  List.length label <= 60 ->
  sanitize_label (sanitize_label label) = sanitize_label label.
Proof.
  intros H. apply sanitize_label_fixed.
  destruct (sanitize_label_shape label) as (Hne & Hl & Hc & Hn & Hs & He).
  cbv zeta in *. specialize (He H). unfold clean.
  rewrite Hc, Hn, Hs, He. apply Nat.leb_le in Hl. rewrite Hl.
  destruct (sanitize_label label); [contradiction|reflexivity].
Qed.

Lemma lstrip_by_all (p : char -> bool) (s : str) :
  forallb p s = true -> lstrip_by p s = [].
Proof.
  induction s as [|a s IH]; simpl; [reflexivity|]. intros H.
  apply andb_true_iff in H. destruct H as [-> H]. auto.
Qed.

(** X6: a label without any letter, digit or underscore (an empty one,
    white space, punctuation, dashes) gives the name [session]. *)
Theorem sanitize_label_fallback (label : str) :
  forallb (fun c => negb (label_char c) || is_dash c) label = true ->
  sanitize_label label = lit "session".
Proof.
  intros H. unfold sanitize_label.
  set (s1 := sub_runs (fun c => negb (label_char c)) (lit "-") false
                      (strip label)).
  assert (H0 : forallb (fun c => negb (label_char c) || is_dash c)
                       (strip label) = true).
  { destruct (strip_split label) as (a & b & E & _). rewrite E in H.
    apply forallb_prefix in H. destruct H as [_ H].
    apply forallb_prefix in H. tauto. }
  assert (H1 : forallb is_dash s1 = true).
  { apply sub_runs_all; [reflexivity|]. intros a Ha Hb.
    rewrite forallb_forall in H0. specialize (H0 a Ha).
    rewrite Hb in H0. exact H0. }
  assert (H2 : forallb is_dash (sub_runs is_dash (lit "-") false s1) = true).
  { apply sub_runs_all; [reflexivity|]. intros a Ha Hb.
    rewrite forallb_forall in H1. rewrite (H1 a Ha) in Hb. discriminate. }
  unfold strip_by. rewrite (@lstrip_by_all is_dash _ H2). reflexivity.
Qed.

(** ** Output paths *)

Lemma forallb_app3 (q : char -> bool) (x y z : str) :
  forallb q x = true -> forallb q y = true -> forallb q z = true ->
  forallb q (x ++ y ++ z) = true.
Proof. intros Hx Hy Hz. rewrite !forallb_app, Hx, Hy, Hz. reflexivity. Qed.

Lemma label_name_char (s : str) :
  forallb label_char s = true -> forallb name_char s = true.
Proof.
  rewrite !forallb_forall. intros H c Hc. unfold name_char.
  rewrite (H c Hc). reflexivity.
Qed.

(** X7: whatever the label argument, [main] names an output file that
    lies directly in [excel-results] under the workspace root.  For an
    empty or blank argument the name is [monitor_session_<stamp>.xlsx];
    otherwise the sanitized label follows the stamp.  The name is at most
    82 characters longer than the stamp and, the stamp being made of
    letters, digits, underscores, dashes and points, so is the name: no
    character of the label can act as a path separator. *)
Theorem output_file_name (workspace_root : path) (stamp arg : str) :
  exists name,
    main_output_file workspace_root stamp arg
    = workspace_root ++ [lit "excel-results"; name] /\
    (strip arg = [] ->
     name = lit "monitor_session_" ++ stamp ++ lit ".xlsx") /\
    (strip arg <> [] ->
     name = lit "monitor_session_" ++ stamp ++ lit "_"
            ++ sanitize_label (strip arg) ++ lit ".xlsx") /\
    List.length name <= List.length stamp + 82 /\
    (forallb name_char stamp = true -> forallb name_char name = true).
Proof.
  unfold main_output_file, main_label, build_output_path_with_label.
  assert (E0 : (if is_empty arg then [] else strip arg) = strip arg)
    by (destruct arg; reflexivity).
  rewrite E0. clear E0.
  destruct (strip arg) as [|c t] eqn:E; cbn [is_empty].
  - exists (lit "monitor_session_" ++ stamp ++ lit ".xlsx").
    rewrite <- app_assoc. split; [reflexivity|].
    split; [reflexivity|]. split; [intros F; contradiction|]. split.
    + rewrite !length_app. simpl. lia.
    + intros Hs. apply forallb_app3; auto.
  - destruct (sanitize_label_shape (c :: t)) as (_ & Hl & Hc & _).
    cbv zeta in Hl, Hc.
    exists (lit "monitor_session_" ++ stamp ++ lit "_"
                ++ sanitize_label (c :: t) ++ lit ".xlsx").
    rewrite <- app_assoc. split; [reflexivity|].
    split; [discriminate|]. split; [reflexivity|]. split.
    + rewrite !length_app. simpl. lia.
    + intros Hs. apply forallb_app3; auto.
      apply forallb_app3; auto. apply label_name_char. exact Hc.
Qed.

(** ** What the capture writes *)

(** X8: the capture loop writes nothing but the stop command, and that
    once and last: after any number of passes from the initial state the
    chunks written are those written before, followed by the stop command
    exactly when the state records that it was sent.  For the session as
    a whole the port receives [z], or [z] and [m], or [z], [m] and the
    stop command, and nothing else. *)
Theorem session_writes (fuel_tare fuel : nat) (p : params) (start_wall : Q)
        (w : world) :
  (exists st',
      state_of (fst (capture_loop fuel p start_wall initial w)) = Some st' /\
      tx (snd (capture_loop fuel p start_wall initial w)) = tx w ++ sent st') /\
  (let out := tx (snd (capture_monitor_session fuel_tare fuel p w)) in
   out = tx w ++ [CMD_TARE] \/
   out = tx w ++ [CMD_TARE; CMD_MONITOR] \/
   out = tx w ++ [CMD_TARE; CMD_MONITOR; CMD_STOP]).
Proof.
  split; [apply capture_loop_tx_initial|apply session_tx].
Qed.

(** ** The stop command and the start marker *)

(** A stop that has been sent was sent while collecting. *)
Lemma capture_loop_guard fuel p sw st w :
  (sent_stop st = true -> collecting st = true) ->
  match capture_loop fuel p sw st w with
  | (Continue st', _) | (Break st', _) | (Raise _ st', _) =>
      sent_stop st' = true -> collecting st' = true
  end.
Proof.
  apply (@capture_loop_keeps
           (fun st _ => sent_stop st = true -> collecting st = true));
    cbn; auto.
Qed.

(** X9: the stop command is never written before the session has
    started: when the capture loop, run from its initial state, has
    written anything, one of the lines received so far bears the
    session-start marker. *)
Theorem stop_only_after_start (fuel : nat) (p : params) (start_wall : Q)
        (w : world) :
  tx (snd (capture_loop fuel p start_wall initial w)) <> tx w ->
  start_seen (received w (snd (capture_loop fuel p start_wall initial w)))
  = true.
Proof.
  intros Hne.
  destruct (capture_loop_tx_initial fuel p start_wall w) as (st1 & S1 & T).
  pose proof (@capture_loop_guard fuel p start_wall initial w) as G.
  specialize (G ltac:(discriminate)).
  destruct (capture_loop_progress fuel p start_wall initial w)
    as (f & st' & w' & E & Hs & _ & _ & Hp).
  rewrite E in *. cbn [fst snd] in *.
  assert (st1 = st') by congruence. subst st1.
  assert (Sent : sent_stop st' = true).
  { unfold sent in T. destruct (sent_stop st'); [reflexivity|].
    rewrite app_nil_r in T. contradiction. }
  assert (C1 : collecting st' = true).
  { destruct f as [s|s|e s]; cbn [state_of] in Hs; inversion Hs; subst s;
      apply G; exact Sent. }
  pose proof (fold_scan_flag (received w w') (progress initial)) as F.
  rewrite <- Hp in F. simpl in F. congruence.
Qed.

(** ** The hard timeout ends every capture *)

(** A stop that has been sent stays sent. *)
Lemma read_line_sent p st w :
  sent_stop st = true ->
  match read_line p st w with
  | (Continue st', _) | (Break st', _) | (Raise _ st', _) =>
      sent_stop st' = true
  end.
Proof.
  apply (@read_line_keeps (fun st _ => sent_stop st = true)); cbn; auto.
Qed.

Lemma read_line_clock p st w :
  match read_line p st w with
  | (f, w') => clock w' = clock w /\ ticks w <= ticks w'
  end.
Proof.
  pose proof (@read_line_keeps
                (fun _ w' => clock w' = clock w /\ ticks w <= ticks w')) as K.
  assert (G : match read_line p st w with
              | (Continue st', w') | (Break st', w') | (Raise _ st', w') =>
                  clock w' = clock w /\ ticks w <= ticks w'
              end).
  { apply K; cbn [time_time readline write snd clock ticks]; auto.
    intros s0 w0 [H1 H2]. split; [exact H1|lia]. }
  destruct (read_line p st w) as [[s|s|e s] w']; exact G.
Qed.

(** A pass under a positive timeout reads the clock at its top. *)
Lemma capture_body_clock p sw st w :
  Qgtb (timeout p) 0 = true ->
  match capture_body p sw st w with
  | (f, w') => clock w' = clock w /\ ticks w < ticks w'
  end.
Proof.
  intros Hon. unfold capture_body, hard_deadline. rewrite Hon.
  cbn [time_time].
  destruct (Qgtb _ (timeout p)).
  - destruct (collecting st && negb (sent_stop st)); [|simpl; auto].
    match goal with
    | |- context [read_line p ?s1 ?w1] =>
        pose proof (read_line_clock p s1 w1) as H;
        destruct (read_line p s1 w1) as [f w']
    end.
    simpl in H. destruct H as [H1 H2]. split; [exact H1|lia].
  - match goal with
    | |- context [read_line p ?s1 ?w1] =>
        pose proof (read_line_clock p s1 w1) as H;
        destruct (read_line p s1 w1) as [f w']
    end.
    simpl in H. destruct H as [H1 H2]. split; [exact H1|lia].
Qed.

(** Once the clock is past the deadline for good, two passes are
    enough. *)
Lemma late_two_passes p sw st w :
  Qgtb (timeout p) 0 = true -> late_from p sw w (ticks w) ->
  left_loop (fst (capture_loop 2 p sw st w)) = true.
Proof.
  intros Hon Hl. unfold capture_loop. rewrite loop_step.
  unfold capture_body at 1, hard_deadline. rewrite Hon. cbn [time_time].
  rewrite (Hl (ticks w) (le_n _)).
  destruct (collecting st && negb (sent_stop st)) eqn:Eb; [|reflexivity].
  match goal with
  | |- context [read_line p ?s1 ?w1] =>
      pose proof (read_line_clock p s1 w1) as Hc;
      pose proof (@read_line_sent p s1 w1 eq_refl) as Hg;
      destruct (read_line p s1 w1) as [[st2|st2|e st2] w2]
  end; try reflexivity.
  simpl in Hc. destruct Hc as [Hk Ht].
  rewrite loop_step. unfold capture_body, hard_deadline.
  rewrite Hon. cbn [time_time]. rewrite Hk, (Hl (ticks w2)) by (simpl in Ht; lia).
  rewrite Hg, andb_false_r. reflexivity.
Qed.

Lemma late_loop_leaves p sw (d : nat) :
  Qgtb (timeout p) 0 = true ->
  forall st w k,
    k <= ticks w + d -> late_from p sw w k ->
    left_loop (fst (capture_loop (d + 2) p sw st w)) = true.
Proof.
  intros Hon. induction d as [|d IH]; intros st w k Hk Hl.
  - apply late_two_passes; [exact Hon|].
    intros i Hi. apply Hl. lia.
  - unfold capture_loop. cbn [Nat.add]. rewrite loop_step.
    pose proof (capture_body_clock p sw st w Hon) as Hc.
    destruct (capture_body p sw st w) as [[st'|st'|e st'] w'];
      try reflexivity.
    destruct Hc as [Hc Ht]. apply (IH st' w' k); [lia|].
    intros i Hi. rewrite Hc. apply Hl. exact Hi.
Qed.

(** X10: the hard timeout ends every capture.  With a positive timeout,
    whatever the device sends and whatever state the loop is in, once all
    clock readings from the [k]-th on lie past the deadline the loop is
    left at most two passes after the reading [k] is reached: every bound
    on the number of passes that allows those is enough. *)
Theorem hard_timeout_ends_capture (p : params) (start_wall : Q)
        (st : cstate) (w : world) (k fuel : nat) :
  (0 < timeout p)%Q ->
  (forall i, k <= i -> (timeout p < clock w i - start_wall)%Q) ->
  k - ticks w + 2 <= fuel ->
  left_loop (fst (capture_loop fuel p start_wall st w)) = true.
Proof.
  intros HT Hl Hf. replace fuel with (fuel - 2 + 2) by lia.
  apply late_loop_leaves with (k := k).
  - apply Qgtb_true. exact HT.
  - lia.
  - intros i Hi. apply Qgtb_true. apply Hl. exact Hi.
Qed.

(** ** The outcome of the handshake *)

Lemma tare_line_passes (line : str) (saw : bool) :
  (passes_over saw line = true ->
   tare_line line saw = Continue (saw || contains TARE_BANNER line)) /\
  (passes_over saw line = false ->
   forall s, tare_line line saw <> Continue s).
Proof.
  unfold passes_over, undecided, tare_line.
  replace (if contains TARE_BANNER line then true else saw)
    with (saw || contains TARE_BANNER line)
    by (destruct saw, (contains TARE_BANNER line); reflexivity).
  destruct (contains TARE_OK line); simpl; [split; discriminate|].
  destruct (contains TARE_FAILED line); simpl; [split; discriminate|].
  destruct ((saw || contains TARE_BANNER line) && contains BANNER_CLOSE line);
    simpl; split; try discriminate; reflexivity.
Qed.

Lemma banner_seq_next (w : world) (j : nat) :
  forall a,
    existsb (fun i => contains TARE_BANNER
                        (line_at (snd (readline (snd (time_time w)))) i))
            (seq a j)
    = existsb (fun i => contains TARE_BANNER (line_at w i)) (seq (S a) j).
Proof.
  induction j as [|j IH]; intros a; cbn [seq existsb]; [reflexivity|].
  rewrite IH, line_at_next. reflexivity.
Qed.

Lemma bannered_next (w : world) (saw : bool) (j : nat) :
  bannered (snd (readline (snd (time_time w))))
           (saw || contains TARE_BANNER (line_at w 0)) j
  = bannered w saw (S j).
Proof.
  unfold bannered. cbn [seq existsb]. rewrite banner_seq_next.
  rewrite orb_assoc. reflexivity.
Qed.

Lemma bannered_0 (w : world) (saw : bool) : bannered w saw 0 = saw.
Proof. unfold bannered. simpl. apply orb_false_r. Qed.

Lemma quiet_until_next ts tt saw w j :
  quiet_until ts tt saw w (S j) ->
  quiet_until ts tt (saw || contains TARE_BANNER (line_at w 0))
              (snd (readline (snd (time_time w)))) j.
Proof.
  intros H k Hk. rewrite in_time_next, line_at_next, bannered_next.
  apply H. lia.
Qed.

Lemma pass_flow_next ts tt saw w j :
  pass_flow ts tt (saw || contains TARE_BANNER (line_at w 0))
            (snd (readline (snd (time_time w)))) j
  = pass_flow ts tt saw w (S j).
Proof.
  unfold pass_flow. rewrite in_time_next, line_at_next, bannered_next.
  reflexivity.
Qed.

(** The loop does what its first deciding pass does. *)
Lemma tare_loop_first (n : nat) ts tt :
  forall saw w j,
    j < n -> quiet_until ts tt saw w j -> decides ts tt saw w j = true ->
    fst (tare_loop n ts tt saw w) = pass_flow ts tt saw w j.
Proof.
  unfold tare_loop. induction n as [|n IH]; intros saw w j Hj Hq Hd; [lia|].
  rewrite loop_step, tare_body_eq. destruct j as [|j].
  - unfold decides in Hd. unfold pass_flow. rewrite bannered_0 in *.
    destruct (in_time ts tt w 0); [|reflexivity].
    simpl in Hd. apply negb_true_iff in Hd.
    destruct (tare_line_passes (line_at w 0) saw) as [_ Hn].
    specialize (Hn Hd).
    destruct (tare_line (line_at w 0) saw) as [s|r|e s]; try reflexivity.
    exfalso. apply (Hn s). reflexivity.
  - destruct (Hq 0 ltac:(lia)) as [Ht Hp]. rewrite bannered_0 in Hp.
    rewrite Ht. destruct (tare_line_passes (line_at w 0) saw) as [Hc _].
    rewrite (Hc Hp). rewrite <- pass_flow_next. apply IH; [lia| |].
    + apply quiet_until_next. exact Hq.
    + unfold decides in *.
      rewrite in_time_next, line_at_next, bannered_next. exact Hd.
Qed.

(** A loop that has ended has had a first deciding pass. *)
Lemma tare_loop_decided (n : nat) ts tt :
  forall saw w,
    (forall s, fst (tare_loop n ts tt saw w) <> Continue s) ->
    exists j,
      j < n /\ quiet_until ts tt saw w j /\ decides ts tt saw w j = true.
Proof.
  unfold tare_loop. induction n as [|n IH]; intros saw w H.
  - exfalso. apply (H saw). reflexivity.
  - rewrite loop_step, tare_body_eq in H.
    destruct (in_time ts tt w 0) eqn:Ht.
    2:{ exists 0. split; [lia|]. split; [intros k Hk; lia|].
        unfold decides. rewrite Ht. reflexivity. }
    destruct (passes_over saw (line_at w 0)) eqn:Hp.
    2:{ exists 0. split; [lia|]. split; [intros k Hk; lia|].
        unfold decides. rewrite bannered_0, Hp, andb_false_r. reflexivity. }
    destruct (tare_line_passes (line_at w 0) saw) as [Hc _].
    rewrite (Hc Hp) in H.
    destruct (IH _ _ H) as (j & Hj & Hq & Hd).
    exists (S j). split; [lia|]. split.
    + intros k Hk. destruct k as [|k].
      * rewrite bannered_0. auto.
      * specialize (Hq k ltac:(lia)).
        rewrite in_time_next, line_at_next, bannered_next in Hq. exact Hq.
    + unfold decides in *.
      rewrite in_time_next, line_at_next, bannered_next in Hd. exact Hd.
Qed.

Lemma decides_pass_flow ts tt saw w j :
  decides ts tt saw w j = true ->
  forall s, pass_flow ts tt saw w j <> Continue s.
Proof.
  unfold decides, pass_flow. intros H s.
  destruct (in_time ts tt w j); [|discriminate].
  simpl in H. apply negb_true_iff in H.
  destruct (tare_line_passes (line_at w j) (bannered w saw j)) as [_ Hn].
  apply Hn. exact H.
Qed.

(** The handshake ends with [o] exactly when a first deciding pass does
    what [o] says. *)
Lemma run_tare_outcome (fuel : nat) (tt : Q) (w : world) (o : outcome unit) :
  o <> Running ->
  (fst (run_tare_before_monitor fuel tt w) = o <->
   exists j,
     j < fuel /\
     quiet_until (clock w (ticks w)) tt false (tare_entry w) j /\
     settle (pass_flow (clock w (ticks w)) tt false (tare_entry w) j) = o).
Proof.
  intros Ho. rewrite run_tare_flow. split.
  - intros H.
    assert (Hn : forall s, fst (tare_loop fuel (clock w (ticks w)) tt false
                                          (tare_entry w)) <> Continue s).
    { intros s E. rewrite E in H. simpl in H. congruence. }
    destruct (@tare_loop_decided fuel _ tt _ _ Hn) as (j & Hj & Hq & Hd).
    exists j. split; [exact Hj|]. split; [exact Hq|].
    rewrite <- (@tare_loop_first fuel _ tt _ _ _ Hj Hq Hd). exact H.
  - intros (j & Hj & Hq & Hp).
    assert (Hd : decides (clock w (ticks w)) tt false (tare_entry w) j = true).
    { destruct (decides _ tt false (tare_entry w) j) eqn:D; [reflexivity|].
      exfalso. unfold decides in D. apply negb_false_iff in D.
      apply andb_true_iff in D. destruct D as [D1 D2].
      unfold pass_flow in Hp. rewrite D1 in Hp.
      destruct (tare_line_passes (line_at (tare_entry w) j)
                                 (bannered (tare_entry w) false j)) as [Hc _].
      rewrite (Hc D2) in Hp. simpl in Hp. congruence. }
    rewrite (@tare_loop_first fuel _ tt _ _ _ Hj Hq Hd). exact Hp.
Qed.

Lemma tare_line_break (line : str) (saw : bool) :
  settle (tare_line line saw) = Returned tt <-> contains TARE_OK line = true.
Proof.
  unfold tare_line. destruct (contains TARE_OK line).
  - split; reflexivity.
  - destruct (contains TARE_FAILED line); [split; discriminate|].
    destruct (_ && _); split; discriminate.
Qed.

Lemma tare_line_failed (line : str) (saw : bool) :
  settle (tare_line line saw) = Raised TareFailed <->
  contains TARE_OK line = false /\ contains TARE_FAILED line = true.
Proof.
  unfold tare_line. destruct (contains TARE_OK line).
  - split; [discriminate|intros [H _]; discriminate H].
  - destruct (contains TARE_FAILED line); [split; auto|].
    destruct (_ && _); split; try discriminate; intros [_ H]; discriminate H.
Qed.

Lemma tare_line_no_timeout (line : str) (saw : bool) :
  settle (tare_line line saw) <> Raised TareTimeout.
Proof.
  unfold tare_line. destruct (contains TARE_OK line); [discriminate|].
  destruct (contains TARE_FAILED line); [discriminate|].
  destruct (_ && _); discriminate.
Qed.

(** X11: the handshake succeeds exactly when some line read contains the
    success marker, the pass that reads it and all passes before are in
    time, and no line before it decides (none bears the success or
    failure marker, none closes a banner already seen). *)
Theorem tare_succeeds_iff (fuel : nat) (tare_timeout_s : Q) (w : world) :
  fst (run_tare_before_monitor fuel tare_timeout_s w) = Returned tt <->
  exists j,
    j < fuel /\ tare_quiet tare_timeout_s w j /\
    tare_in_time tare_timeout_s w j = true /\
    contains TARE_OK (line_at w j) = true.
Proof.
  rewrite (@run_tare_outcome fuel tare_timeout_s w (Returned tt));
    [|discriminate].
  unfold tare_quiet, tare_in_time, pass_flow.
  split; intros (j & Hj & Hq & H); exists j; (split; [exact Hj|]);
    (split; [exact Hq|]);
    change (line_at w j) with (line_at (tare_entry w) j) in *.
  - destruct (in_time _ _ _ j); [|discriminate H].
    apply tare_line_break in H. auto.
  - destruct H as [-> H]. apply tare_line_break. exact H.
Qed.

(** X12: the handshake fails with [TareTimeout] exactly when some pass
    finds the timeout exceeded and no line read before that pass
    decides; a line that arrives after the timeout is never looked at. *)
Theorem tare_times_out_iff (fuel : nat) (tare_timeout_s : Q) (w : world) :
  fst (run_tare_before_monitor fuel tare_timeout_s w) = Raised TareTimeout <->
  exists j,
    j < fuel /\ tare_quiet tare_timeout_s w j /\
    tare_in_time tare_timeout_s w j = false.
Proof.
  rewrite (@run_tare_outcome fuel tare_timeout_s w (Raised TareTimeout));
    [|discriminate].
  unfold tare_quiet, tare_in_time, pass_flow.
  split; intros (j & Hj & Hq & H); exists j; (split; [exact Hj|]);
    (split; [exact Hq|]).
  - destruct (in_time _ _ _ j); [|reflexivity].
    exfalso. exact (tare_line_no_timeout _ _ H).
  - rewrite H. reflexivity.
Qed.

(** X13: the handshake fails with [TareFailed] exactly when some line
    read in time contains the failure marker and not the success marker,
    and no line before it decides. *)
Theorem tare_fails_iff (fuel : nat) (tare_timeout_s : Q) (w : world) :
  fst (run_tare_before_monitor fuel tare_timeout_s w) = Raised TareFailed <->
  exists j,
    j < fuel /\ tare_quiet tare_timeout_s w j /\
    tare_in_time tare_timeout_s w j = true /\
    contains TARE_OK (line_at w j) = false /\
    contains TARE_FAILED (line_at w j) = true.
Proof.
  rewrite (@run_tare_outcome fuel tare_timeout_s w (Raised TareFailed));
    [|discriminate].
  unfold tare_quiet, tare_in_time, pass_flow.
  split; intros (j & Hj & Hq & H); exists j; (split; [exact Hj|]);
    (split; [exact Hq|]);
    change (line_at w j) with (line_at (tare_entry w) j) in *.
  - destruct (in_time _ _ _ j); [|discriminate H].
    apply tare_line_failed in H. tauto.
  - destruct H as [-> H]. apply tare_line_failed. exact H.
Qed.

(** X14: the handshake cannot hang.  When the clock reading of some pass
    lies more than the timeout after the start, the handshake has
    returned or raised by that pass at the latest, whatever the device
    sends. *)
Theorem tare_ends_by_timeout (tare_timeout_s : Q) (w : world) (k fuel : nat) :
  (tare_timeout_s < clock w (S (ticks w) + k) - clock w (ticks w))%Q ->
  k < fuel ->
  fst (run_tare_before_monitor fuel tare_timeout_s w) <> Running.
Proof.
  intros Hlate Hk. rewrite run_tare_flow.
  set (ts := clock w (ticks w)).
  assert (Hd : decides ts tare_timeout_s false (tare_entry w) k = true).
  { unfold decides, in_time, ts.
    cbn [tare_entry time_time write snd clock ticks].
    apply Qgtb_true in Hlate. rewrite Hlate. reflexivity. }
  destruct (first_true k (decides ts tare_timeout_s false (tare_entry w)) Hd)
    as (k0 & Hk0 & Hd0 & Hlt).
  assert (Hq : quiet_until ts tare_timeout_s false (tare_entry w) k0).
  { intros i Hi. specialize (Hlt i Hi). unfold decides in Hlt.
    apply negb_false_iff in Hlt. apply andb_true_iff in Hlt. exact Hlt. }
  rewrite (@tare_loop_first fuel ts tare_timeout_s false (tare_entry w) k0
                            ltac:(lia) Hq Hd0).
  pose proof (decides_pass_flow _ _ _ _ _ Hd0) as Hn.
  destruct (pass_flow ts tare_timeout_s false (tare_entry w) k0) as [s|r|e s];
    simpl; try discriminate.
  exfalso. apply (Hn s). reflexivity.
Qed.

(** ** The frame and its summary *)

Lemma frame_from_samples (rs : list DataRow) :
  forall n prev,
    map sample (frame_from n prev rs) = seq n (List.length rs).
Proof.
  induction rs as [|r rs IH]; intros n prev; simpl; [reflexivity|].
  rewrite IH. reflexivity.
Qed.

(** X15: the frame built from the collected rows has one entry per row,
    in the order of the rows and with the rows unchanged, numbered 1, 2,
    ... in that order; the interval of the first entry is the sample
    time of the first row. *)
Theorem data_frame_numbering (rs : list DataRow) :
  List.length (data_frame rs) = List.length rs /\
  map data (data_frame rs) = rs /\
  map sample (data_frame rs) = seq 1 (List.length rs) /\
  (forall r rs', rs = r :: rs' ->
     option_map entry_interval_ms (hd_error (data_frame rs))
     = Some (inject_Z (sample_ms r))).
Proof.
  unfold data_frame. split; [|split; [|split]].
  - rewrite <- (length_map data), frame_from_data. reflexivity.
  - apply frame_from_data.
  - apply frame_from_samples.
  - intros r rs' ->. reflexivity.
Qed.

Lemma max_Z_from (xs : list Z) :
  forall x,
    (x <= fold_left Z.max xs x)%Z /\
    (forall y, In y xs -> (y <= fold_left Z.max xs x)%Z) /\
    In (fold_left Z.max xs x) (x :: xs).
Proof.
  induction xs as [|a xs IH]; intros x; simpl.
  - split; [lia|]. split; [intros y []|left; reflexivity].
  - destruct (IH (Z.max x a)) as (H1 & H2 & H3). split; [lia|]. split.
    + intros y [<-|Hy]; [lia|apply H2; exact Hy].
    + destruct (Z.max_spec x a) as [[_ E]|[_ E]]; rewrite E in *;
        destruct H3 as [H3|H3]; auto.
Qed.

Lemma min_Z_from (xs : list Z) :
  forall x,
    (fold_left Z.min xs x <= x)%Z /\
    (forall y, In y xs -> (fold_left Z.min xs x <= y)%Z) /\
    In (fold_left Z.min xs x) (x :: xs).
Proof.
  induction xs as [|a xs IH]; intros x; simpl.
  - split; [lia|]. split; [intros y []|left; reflexivity].
  - destruct (IH (Z.min x a)) as (H1 & H2 & H3). split; [lia|]. split.
    + intros y [<-|Hy]; [lia|apply H2; exact Hy].
    + destruct (Z.min_spec x a) as [[_ E]|[_ E]]; rewrite E in *;
        destruct H3 as [H3|H3]; auto.
Qed.

Lemma extremes_Z (x : Z) (xs : list Z) :
  (forall y, In y (x :: xs) -> (min_Z x xs <= y <= max_Z x xs)%Z) /\
  In (max_Z x xs) (x :: xs) /\ In (min_Z x xs) (x :: xs).
Proof.
  unfold max_Z, min_Z.
  destruct (max_Z_from xs x) as (A1 & A2 & A3).
  destruct (min_Z_from xs x) as (B1 & B2 & B3).
  split; [|split; assumption].
  intros y [<-|Hy]; [lia|]. split; [apply B2|apply A2]; exact Hy.
Qed.

Lemma Qmaxb_ge (a b : Q) : (a <= Qmaxb a b)%Q /\ (b <= Qmaxb a b)%Q.
Proof.
  unfold Qmaxb. destruct (Qle_bool a b) eqn:E.
  - apply Qle_bool_iff in E. split; [exact E|apply Qle_refl].
  - split; [apply Qle_refl|]. apply Qlt_le_weak. apply Qnot_le_lt.
    intros H. apply Qle_bool_iff in H. congruence.
Qed.

Lemma Qminb_le (a b : Q) : (Qminb a b <= a)%Q /\ (Qminb a b <= b)%Q.
Proof.
  unfold Qminb. destruct (Qle_bool a b) eqn:E.
  - apply Qle_bool_iff in E. split; [apply Qle_refl|exact E].
  - split; [|apply Qle_refl]. apply Qlt_le_weak. apply Qnot_le_lt.
    intros H. apply Qle_bool_iff in H. congruence.
Qed.

Lemma max_Q_from (xs : list Q) :
  forall x,
    (x <= fold_left Qmaxb xs x)%Q /\
    (forall y, In y xs -> (y <= fold_left Qmaxb xs x)%Q).
Proof.
  induction xs as [|a xs IH]; intros x; simpl.
  - split; [apply Qle_refl|intros y []].
  - destruct (IH (Qmaxb x a)) as (H1 & H2).
    destruct (Qmaxb_ge x a) as [G1 G2]. split.
    + eapply Qle_trans; eassumption.
    + intros y [<-|Hy]; [eapply Qle_trans; eassumption|apply H2; exact Hy].
Qed.

Lemma min_Q_from (xs : list Q) :
  forall x,
    (fold_left Qminb xs x <= x)%Q /\
    (forall y, In y xs -> (fold_left Qminb xs x <= y)%Q).
Proof.
  induction xs as [|a xs IH]; intros x; simpl.
  - split; [apply Qle_refl|intros y []].
  - destruct (IH (Qminb x a)) as (H1 & H2).
    destruct (Qminb_le x a) as [G1 G2]. split.
    + eapply Qle_trans; eassumption.
    + intros y [<-|Hy]; [eapply Qle_trans; eassumption|apply H2; exact Hy].
Qed.

Lemma extremes_Q (x : Q) (xs : list Q) (y : Q) :
  In y (x :: xs) -> (min_Q x xs <= y)%Q /\ (y <= max_Q x xs)%Q.
Proof.
  unfold max_Q, min_Q.
  destruct (max_Q_from xs x) as (A1 & A2).
  destruct (min_Q_from xs x) as (B1 & B2).
  intros [<-|Hy]; [split; assumption|]. split; [apply B2|apply A2]; exact Hy.
Qed.

Lemma compute_summary_some (df : list frame_row) :
  df <> [] ->
  exists first rest last front s,
    map data df = first :: rest /\
    map data df = front ++ [last] /\
    compute_summary df = Some s /\
    samples s = List.length df /\
    sampling_total_s s = elapsed_s last /\
    sample_ms_min s = min_Z (sample_ms first) (map sample_ms rest) /\
    sample_ms_max s = max_Z (sample_ms first) (map sample_ms rest) /\
    raw_high s = max_Z (raw_adc first) (map raw_adc rest) /\
    raw_low s = min_Z (raw_adc first) (map raw_adc rest) /\
    strain_high_uE s = max_Q (strain_uE first) (map strain_uE rest) /\
    strain_low_uE s = min_Q (strain_uE first) (map strain_uE rest).
Proof.
  intros Hne. unfold compute_summary.
  destruct (map data df) as [|first rest] eqn:E.
  { destruct df; [contradiction|discriminate E]. }
  destruct (rev (first :: rest)) as [|last back] eqn:R.
  { apply (f_equal (@List.length DataRow)) in R.
    rewrite length_rev in R. discriminate R. }
  exists first, rest, last, (rev back). eexists.
  split; [reflexivity|]. split.
  - rewrite <- (rev_involutive (first :: rest)), R. reflexivity.
  - repeat split; reflexivity.
Qed.

Lemma session_frame (fuel_tare fuel : nat) (p : params) (w w' : world)
      (frame : list frame_row) :
  capture_monitor_session fuel_tare fuel p w = (Returned frame, w') ->
  exists st, rows st <> [] /\ frame = data_frame (rows st).
Proof.
  unfold capture_monitor_session.
  destruct (run_tare_before_monitor fuel_tare TARE_TIMEOUT_DEFAULT w)
    as [[r|e|] w1]; try discriminate.
  destruct (monitor_phase fuel p w1) as [[st|st|e st] w2]; try discriminate.
  unfold finish. intros H. exists st.
  destruct (rows st) eqn:E; [discriminate H|].
  split; [discriminate|]. inversion H. reflexivity.
Qed.

(** X16: [compute_summary] fails on the frame without rows and on no
    other; in particular it never fails on a frame that
    [capture_monitor_session] returns, for which it counts at least one
    sample and gives as total time the elapsed time of the row collected
    last. *)
Theorem summary_of_session (fuel_tare fuel : nat) (p : params)
        (w w' : world) (frame : list frame_row) :
  (forall df, compute_summary df = None <-> df = []) /\
  (capture_monitor_session fuel_tare fuel p w = (Returned frame, w') ->
   exists s front last,
     compute_summary frame = Some s /\
     samples s = List.length frame /\ 1 <= samples s /\
     map data frame = front ++ [last] /\
     sampling_total_s s = elapsed_s last).
Proof.
  split.
  - intros df. split; [|intros ->; reflexivity].
    intros H. destruct df as [|r df]; [reflexivity|].
    destruct (@compute_summary_some (r :: df) ltac:(discriminate))
      as (? & ? & ? & ? & s & _ & _ & E & _).
    congruence.
  - intros H. destruct (session_frame _ _ _ _ H) as (st & Hne & ->).
    assert (Hf : data_frame (rows st) <> []).
    { intros E. apply (f_equal (map data)) in E.
      unfold data_frame in E. rewrite frame_from_data in E. contradiction. }
    destruct (compute_summary_some Hf)
      as (first & rest & last & front & s & _ & E2 & E & Hs & Ht & _).
    exists s, front, last. rewrite Hs. repeat split; auto.
    destruct (data_frame (rows st)); [contradiction|simpl; lia].
Qed.

Lemma column_first (A : Type) (f : DataRow -> A) (df : list frame_row)
      (first : DataRow) (rest : list DataRow) :
  map data df = first :: rest ->
  map f (map data df) = f first :: map f rest /\
  (forall r, In r df -> In (f (data r)) (f first :: map f rest)) /\
  (forall y, In y (f first :: map f rest) ->
             exists r, In r df /\ f (data r) = y).
Proof.
  intros E. split; [rewrite E; reflexivity|]. split.
  - intros r Hr. change (In (f (data r)) (map f (first :: rest))).
    rewrite <- E. apply in_map, in_map, Hr.
  - intros y Hy. change (In y (map f (first :: rest))) in Hy.
    rewrite <- E in Hy. apply in_map_iff in Hy.
    destruct Hy as (d & <- & Hd). apply in_map_iff in Hd.
    destruct Hd as (r & <- & Hr). exists r. auto.
Qed.

(** X17: in the summary of a frame the extremes are extremes: the raw ADC
    value, the sample time and the strain of every row lie between the
    low and the high that the summary gives for them, and the highest and
    lowest raw ADC value and sample time are each the value of some
    row. *)
Theorem summary_extremes (df : list frame_row) (s : summary) :
  compute_summary df = Some s ->
  (forall r, In r df ->
     (raw_low s <= raw_adc (data r) <= raw_high s)%Z /\
     (sample_ms_min s <= sample_ms (data r) <= sample_ms_max s)%Z /\
     (strain_low_uE s <= strain_uE (data r))%Q /\
     (strain_uE (data r) <= strain_high_uE s)%Q) /\
  (exists r, In r df /\ raw_adc (data r) = raw_high s) /\
  (exists r, In r df /\ raw_adc (data r) = raw_low s) /\
  (exists r, In r df /\ sample_ms (data r) = sample_ms_max s) /\
  (exists r, In r df /\ sample_ms (data r) = sample_ms_min s).
Proof.
  intros H.
  assert (Hne : df <> []) by (intros ->; discriminate H).
  destruct (compute_summary_some Hne)
    as (first & rest & last & front & s' & E1 & _ & E & _ & _ &
        Hmin & Hmax & Hhi & Hlo & Hsh & Hsl).
  rewrite H in E. inversion E; subst s'. clear E.
  rewrite Hmin, Hmax, Hhi, Hlo, Hsh, Hsl.
  destruct (column_first raw_adc df E1) as (_ & R1 & R2).
  destruct (column_first sample_ms df E1) as (_ & M1 & M2).
  destruct (column_first strain_uE df E1) as (_ & S1 & _).
  destruct (extremes_Z (raw_adc first) (map raw_adc rest)) as (RB & RH & RL).
  destruct (extremes_Z (sample_ms first) (map sample_ms rest))
    as (MB & MH & ML).
  split; [|repeat split].
  - intros r Hr. split; [apply RB, R1, Hr|]. split; [apply MB, M1, Hr|].
    apply extremes_Q, S1, Hr.
  - apply R2, RH.
  - apply R2, RL.
  - apply M2, MH.
  - apply M2, ML.
Qed.


End Facts.

(** * The theorems on concrete runs

    The runs below are on [cpython]. *)

(** ** Rows *)

(** C3 as stated fails: text after a valid row, here an eighth field or a
    unit, does not make [parse_row] return [None]. *)
Lemma parse_row_ignores_tail :
  row_shape (lit "1,2,3,4,5,6,7,8") = false /\
  row_shape (lit "0.5,100,512,510,509,3,1.25 volts") = false /\
  parse_row (lit "1,2,3,4,5,6,7,8") =
    Ok (Some {| elapsed_s := 1; sample_ms := 2; raw_adc := 3; avg_20 := 4;
                filtered_20 := 5; zeroed_adc := 6; strain_uE := 7 |}) /\
  parse_row (lit "0.5,100,512,510,509,3,1.25 volts") =
    Ok (Some {| elapsed_s := 0.5; sample_ms := 100; raw_adc := 512;
                avg_20 := 510; filtered_20 := 509; zeroed_adc := 3;
                strain_uE := 1.25 |}).
Proof. repeat split; vm_compute; reflexivity. Qed.

(** The three outcomes of [parse_row] side by side.  A field of 4300
    digits is converted and one of 4301 digits makes [int()] raise; the
    Arabic-Indic digits U+0661 to U+0663 are read in the third field and
    make the line no row in the second. *)
Example parse_row_outcomes :
  (exists row, parse_row (long_field_line 4300) = Ok (Some row)) /\
  parse_row (long_field_line 4301) = Err ValueError /\
  parse_row (lit "1,2," ++ [1633; 1634; 1635]%N ++ lit ",4,5,6,7")
  = Ok (Some {| elapsed_s := 1; sample_ms := 2; raw_adc := 123; avg_20 := 4;
                filtered_20 := 5; zeroed_adc := 6; strain_uE := 7 |}) /\
  parse_row (lit "1," ++ [1633; 1634; 1635]%N ++ lit ",3,4,5,6,7") = Ok None.
Proof.
  split; [|split; [|split]].
  - destruct (parse_row (long_field_line 4300)) as [[row|]|e] eqn:E.
    + exists row. reflexivity.
    + exfalso. revert E. vm_compute. discriminate.
    + exfalso. revert E. vm_compute. discriminate.
  - vm_compute. reflexivity.
  - vm_compute. reflexivity.
  - vm_compute. reflexivity.
Qed.

Lemma parsed_times_nonnegative_witness :
  (0 <= elapsed_s row_1_to_7)%Q /\ (0 <= sample_ms row_1_to_7)%Z.
Proof.
  apply (@parsed_times_nonnegative _ (lit "1,2,3,4,5,6,7,8") row_1_to_7).
  vm_compute. reflexivity.
Defined.

(** ** The hard timeout *)

Lemma hard_deadline_exceeded_witness :
  capture_body {| duration := None; timeout := 90 |} 0 underway
               (silent_since 100)
  = read_line {| duration := None; timeout := 90 |} (set_sent_stop underway)
              (write CMD_STOP (snd (time_time (silent_since 100)))).
Proof.
  apply (@hard_deadline_exceeded _ {| duration := None; timeout := 90 |} 0
                                 underway (silent_since 100));
    reflexivity.
Defined.

(** C2 as stated fails twice.  Before the session-start marker has been
    seen, the pass that finds the hard deadline exceeded leaves the loop
    although no stop was sent, and sends none.  And the deadline is not
    always active: with a timeout of zero a session that is being
    collected neither receives a stop nor is left. *)
Lemma hard_deadline_before_start :
  (sent_stop initial = false /\
   capture_body {| duration := None; timeout := 90 |} 0 initial
                (silent_since 100)
   = (Break initial, snd (time_time (silent_since 100))) /\
   tx (snd (time_time (silent_since 100))) = [CMD_MONITOR]) /\
  (let r := capture_body {| duration := None; timeout := 0 |} 0 underway
                         (silent_since 100) in
   fst r = Continue underway /\ tx (snd r) = [CMD_MONITOR]).
Proof. vm_compute. repeat split; reflexivity. Qed.

Lemma hard_timeout_ends_capture_witness :
  left_loop
    (fst (capture_loop 250 {| duration := None; timeout := 90 |}
                       0 initial
                       (script [SESSION_START; lit "noise"] (1 # 2))))
  = true.
Proof.
  apply (@hard_timeout_ends_capture
           _ {| duration := None; timeout := 90 |} 0 initial
           (script [SESSION_START; lit "noise"] (1 # 2)) 200 250).
  - reflexivity.
  - intros i Hi. cbn [script clock timeout]. unfold Qlt. cbn.
    rewrite !Z.mul_1_r. lia.
  - cbn. lia.
Defined.

(** ** Which lines become rows *)

(** C4 as stated fails: a line that bears the session-start marker after
    seven numbers is appended as a row, though no line after it parses. *)
Lemma start_marker_line_appended :
  let l1 := lit "1,2,3,4,5,6,7 [M_SESSION_START]" in
  let l2 := lit "[M_SESSION_END]" in
  contains SESSION_START l1 = true /\
  parse_row l2 = Ok None /\
  option_map rows
    (state_of (fst (monitor_phase 5 DEFAULTS (script [l1; l2] (1 # 10)))))
  = Some [row_1_to_7].
Proof. vm_compute. repeat split; reflexivity. Qed.

Lemma end_marker_ends_session_witness :
  exists st' w',
    capture_body DEFAULTS 0 underway
                 (script [lit "1,2,3,4,5,6,7 [M_SESSION_END]"] (1 # 10))
    = (Break st', w') /\
    rows st' = [row_1_to_7] /\ reads w' = 1.
Proof.
  destruct (@end_marker_ends_session _ DEFAULTS 0 underway
              (script [lit "1,2,3,4,5,6,7 [M_SESSION_END]"] (1 # 10)))
    as (st' & w' & E & Hr & Hd).
  - vm_compute. discriminate.
  - left. reflexivity.
  - vm_compute. reflexivity.
  - exists st', w'. split; [exact E|]. split; [exact Hr|exact Hd].
Defined.

(** C5 as stated fails in its last part: a line that carries the
    session-end marker after seven numbers ends the session and is
    appended as a row all the same. *)
Lemma end_marker_line_appended :
  let l1 := lit "[M_SESSION_START]" in
  let l2 := lit "1,2,3,4,5,6,7 [M_SESSION_END]" in
  ends_session l2 = true /\
  parse_row l1 = Ok None /\
  exists st,
    fst (monitor_phase 5 DEFAULTS (script [l1; l2] (1 # 10))) = Break st /\
    rows st = [row_1_to_7].
Proof.
  vm_compute. split; [reflexivity|]. split; [reflexivity|].
  eexists. split; reflexivity.
Qed.


Lemma stop_only_after_start_witness :
  start_seen
    (received (script [SESSION_START] 1)
       (snd (capture_loop 3 {| duration := Some 0%Q; timeout := 90 |} 0
                          initial (script [SESSION_START] 1))))
  = true.
Proof.
  apply stop_only_after_start. vm_compute. discriminate.
Defined.

(** ** The handshake *)

Lemma tare_ended_without_result_witness :
  fst (run_tare_before_monitor 5 60
         (script [TARE_BANNER; lit "Taring..."; BANNER_CLOSE] (1 # 10)))
  = Raised TareEndedWithoutResult.
Proof.
  apply (proj2 (proj1 (tare_ended_without_result 5 60
                         (script [TARE_BANNER; lit "Taring..."; BANNER_CLOSE]
                                 (1 # 10))))).
  exists 0, 2. split; [lia|]. split; [lia|].
  split; [vm_compute; reflexivity|]. split; [vm_compute; reflexivity|].
  intros k Hk. destruct k as [|[|[|k]]];
    [vm_compute; auto | vm_compute; auto | vm_compute; auto | lia].
Defined.

(** C7 as stated fails: the banner need not have been observed on an
    earlier line.  A single line that contains the banner and the closing
    marker makes the handshake fail at once, on the first line read. *)
Lemma banner_and_close_on_one_line :
  let r := run_tare_before_monitor 5 60
             (script [TARE_BANNER ++ BANNER_CLOSE] (1 # 10)) in
  fst r = Raised TareEndedWithoutResult /\ reads (snd r) = 1.
Proof. vm_compute. split; reflexivity. Qed.

Lemma tare_ends_by_timeout_witness :
  fst (run_tare_before_monitor 61 60 (script [TARE_BANNER] 1)) <> Running.
Proof.
  apply (@tare_ends_by_timeout 60 (script [TARE_BANNER] 1) 60 61).
  - vm_compute. reflexivity.
  - lia.
Defined.

(** ** A timeout that is not positive *)

Lemma nonpositive_timeout_never_fires_witness :
  left_loop
    (fst (capture_loop 1000 {| duration := Some 20%Q; timeout := 0 |} 0
                       initial (script [SESSION_START] (1 # 10))))
  = false.
Proof.
  apply (@nonpositive_timeout_never_fires
           _ {| duration := Some 20%Q; timeout := 0 |} 0 initial
           (script [SESSION_START] (1 # 10))).
  - vm_compute. discriminate.
  - intros k. cbn [script device]. destruct k as [|[|k]];
      split; reflexivity.
Defined.

(** C10 as stated fails in its last part: with a timeout of zero the
    loop is left without any line that contains the session-end marker
    or the completion phrase, by the [ValueError] that [int()] raises on
    a field of 4301 digits. *)
Lemma long_integer_leaves_loop :
  let p := {| duration := None; timeout := 0 |} in
  let w := script [SESSION_START; long_field_line 4301] (1 # 10) in
  ends_session SESSION_START = false /\
  ends_session (long_field_line 4301) = false /\
  left_loop (fst (capture_loop 2 p 0 initial w)) = true /\
  settle (fst (capture_loop 2 p 0 initial w)) = Raised ValueError /\
  reads (snd (capture_loop 2 p 0 initial w)) = 2.
Proof. vm_compute. repeat split; reflexivity. Qed.

(** ** A silent device *)

Lemma silent_device_terminates_witness :
  exists fuel st w',
    monitor_phase fuel {| duration := None; timeout := 1 |}
                  (script [] (1 # 2))
    = (Break st, w') /\
    rows st = [] /\ tx w' = [CMD_MONITOR] /\
    (now w' - clock (script [] (1 # 2)) 0 <= 1 + (1 # 2))%Q.
Proof.
  apply (@silent_device_terminates _ {| duration := None; timeout := 1 |}
                                   (script [] (1 # 2)) (1 # 2)).
  - reflexivity.
  - intros k. cbn [script device reads]. destruct (0 + k); reflexivity.
  - intros k. cbn [script clock ticks]. unfold Qle. cbn.
    rewrite !Z.mul_1_r. lia.
  - exists 3. vm_compute. reflexivity.
Defined.

(** C8 as stated fails for a timeout that is not positive: with a hard
    timeout of zero and a silent device the loop is never left. *)
Lemma silent_device_zero_timeout :
  ~ exists fuel,
      left_loop
        (fst (monitor_phase fuel {| duration := None; timeout := 0 |}
                            (script [] (1 # 2))))
      = true.
Proof.
  intros [fuel H]. revert H. unfold monitor_phase. cbn [time_time].
  rewrite capture_loop_stays; [discriminate|reflexivity|].
  intros k. cbn [script device write]. destruct k; split; reflexivity.
Qed.

(** ** Labels *)

Lemma sanitize_label_keeps_clean_witness :
  sanitize_label (lit "run-7_filtered") = lit "run-7_filtered".
Proof.
  apply (@sanitize_label_keeps_clean (lit "run-7_filtered")). reflexivity.
Defined.

Lemma sanitize_label_idempotent_witness :
  sanitize_label (sanitize_label (lit "  AVV filter: 10 nF / 2.2 uF  "))
  = sanitize_label (lit "  AVV filter: 10 nF / 2.2 uF  ").
Proof.
  apply (@sanitize_label_idempotent (lit "  AVV filter: 10 nF / 2.2 uF  ")).
  vm_compute. repeat constructor.
Defined.

Lemma sanitize_label_fallback_witness :
  sanitize_label (lit " -- ?! -- ") = lit "session".
Proof.
  apply (@sanitize_label_fallback (lit " -- ?! -- ")). reflexivity.
Defined.

(** ** The summary *)

Lemma summary_of_session_witness :
  exists s,
    compute_summary
      (data_frame
         (parsed_rows (map lit ["0.10,100,512,510,509,3,1.25";
                                "0.20,100,515,511,509,4,1.40";
                                "0.30,100,520,512,510,5,1.55"]%string)))
    = Some s /\
    samples s = 3.
Proof.
  pose (r := capture_monitor_session 10 10 DEFAULTS
                                     (script scenario (1 # 100))).
  destruct (proj2 (@summary_of_session
                     _ 10 10 DEFAULTS (script scenario (1 # 100)) (snd r)
                     (data_frame
                        (parsed_rows
                           (map lit ["0.10,100,512,510,509,3,1.25";
                                     "0.20,100,515,511,509,4,1.40";
                                     "0.30,100,520,512,510,5,1.55"]%string)))))
    as (s & front & last & E & Hs & _).
  - vm_compute. reflexivity.
  - exists s. split; [exact E|]. rewrite Hs. vm_compute. reflexivity.
Defined.

Lemma summary_extremes_witness :
  let df :=
      (data_frame
         (parsed_rows (map lit ["0.10,100,512,510,509,3,1.25";
                                "0.20,100,515,511,509,4,1.40";
                                "0.30,100,520,512,510,5,1.55"]%string))) in
  exists s, compute_summary df = Some s /\
    exists r, In r df /\ raw_adc (data r) = raw_high s.
Proof.
  intros df. eexists. split; [vm_compute; reflexivity|].
  apply (@summary_extremes df _ eq_refl).
Defined.
